(** * fix_memory_leaks.py: a shallow embedding and its properties

    The script rewrites JavaScript sources line by line with three regular
    expression substitutions.  Text is a list of characters; a character is
    Rocq's [ascii], read as the Unicode code point of the same number
    (U+0000 .. U+00FF), and classified the way CPython classifies that code
    point.  The regular expression engine is the backtracking matcher of
    Python's [re] restricted to the constructs the three patterns use. *)

From Stdlib Require Import Ascii String List ZArith Lia Bool Arith.
From stdpp Require Import gmap strings.
Import ListNotations.

Local Open Scope string_scope.
Local Open Scope list_scope.
Local Open Scope nat_scope.

(** ** Text *)

Definition str := list ascii.

(** A string literal of the source as text. *)
Definition lit (s : string) : str := list_ascii_of_string s.

Definition newline : ascii := ascii_of_nat 10.

(** [str.isspace] on one code point; also the class [\s]. *)
Definition is_space (c : ascii) : bool :=
  let n := nat_of_ascii c in
  ((9 <=? n) && (n <=? 13)) || ((28 <=? n) && (n <=? 32))
  || (n =? 133) || (n =? 160).

(** The class [\w]: alphanumeric code points and the underscore. *)
Definition is_word (c : ascii) : bool :=
  let n := nat_of_ascii c in
  ((48 <=? n) && (n <=? 57)) || ((65 <=? n) && (n <=? 90))
  || ((97 <=? n) && (n <=? 122)) || (n =? 95)
  || (n =? 170) || (n =? 178) || (n =? 179) || (n =? 181)
  || (n =? 185) || (n =? 186) || ((188 <=? n) && (n <=? 190))
  || ((192 <=? n) && (n <=? 214)) || ((216 <=? n) && (n <=? 246))
  || ((248 <=? n) && (n <=? 255)).

(** [s.startswith(p)] *)
Fixpoint startswith (p s : str) : bool :=
  match p, s with
  | [], _ => true
  | a :: p', b :: s' => Ascii.eqb a b && startswith p' s'
  | _ :: _, [] => false
  end.

(** [p in s] *)
Fixpoint contains (p s : str) : bool :=
  startswith p s ||
  match s with
  | [] => false
  | _ :: s' => contains p s'
  end.

Fixpoint lstrip (s : str) : str :=
  match s with
  | c :: s' => if is_space c then lstrip s' else s
  | [] => []
  end.

(** [s.strip()] *)
Definition strip (s : str) : str := rev (lstrip (rev (lstrip s))).

(** [s.split(sep)] for a separator of one character. *)
Fixpoint split (sep : ascii) (s : str) : list str :=
  match s with
  | [] => [[]]
  | c :: s' =>
      if Ascii.eqb c sep then [] :: split sep s'
      else match split sep s' with
           | l :: ls => (c :: l) :: ls
           | [] => [[c]]
           end
  end.

(** [sep.join(ls)] *)
Fixpoint join (sep : str) (ls : list str) : str :=
  match ls with
  | [] => []
  | [l] => l
  | l :: ls' => l ++ sep ++ join sep ls'
  end.

(** ** Regular expressions

    The constructs of the three patterns: literal text, a greedy repetition
    of a character class, the word boundary, a capturing group, a greedy
    optional non-capturing group, and concatenation. *)

Inductive regex : Type :=
| Lit (l : str)
| Plus (p : ascii -> bool)
| Star (p : ascii -> bool)
| Bound
| Group (n : nat) (r : regex)
| Opt (r : regex)
| Cat (r1 r2 : regex).

(** The groups of a match: [None] for a group that did not take part. *)
Definition groups := nat -> option str.

Definition no_groups : groups := fun _ => None.

Definition set_group (n : nat) (v : str) (g : groups) : groups :=
  fun i => if Nat.eqb i n then Some v else g i.

(** [l] removed from the front of [s], and the last character passed. *)
Fixpoint eat (l : str) (prev : option ascii) (s : str)
  : option (option ascii * str) :=
  match l with
  | [] => Some (prev, s)
  | a :: l' =>
      match s with
      | b :: s' => if Ascii.eqb a b then eat l' (Some b) s' else None
      | [] => None
      end
  end.

Definition word_at (c : option ascii) : bool :=
  match c with
  | Some a => is_word a
  | None => false
  end.

Section Matcher.
Context {A : Type}.

(** A greedy [class*]: the longest run first, then one character less at
    a time, until the rest of the pattern (the continuation) succeeds. *)
Fixpoint star (p : ascii -> bool) (prev : option ascii) (s : str)
         (k : option ascii -> str -> option A) : option A :=
  match s with
  | c :: s' =>
      if p c then
        match star p (Some c) s' k with
        | Some r => Some r
        | None => k prev s
        end
      else k prev s
  | [] => k prev s
  end.

Definition plus (p : ascii -> bool) (prev : option ascii) (s : str)
           (k : option ascii -> str -> option A) : option A :=
  match s with
  | c :: s' => if p c then star p (Some c) s' k else None
  | [] => None
  end.

(** The matcher, with [prev] the character before the position, [s] the
    text from the position on, and [k] the rest of the pattern. *)
Fixpoint run (r : regex) (prev : option ascii) (s : str) (g : groups)
         (k : option ascii -> str -> groups -> option A) : option A :=
  match r with
  | Lit l =>
      match eat l prev s with
      | Some (prev', s') => k prev' s' g
      | None => None
      end
  | Plus p => plus p prev s (fun prev' s' => k prev' s' g)
  | Star p => star p prev s (fun prev' s' => k prev' s' g)
  | Bound =>
      if xorb (word_at prev) (word_at (head s)) then k prev s g else None
  | Group n r' =>
      run r' prev s g
          (fun prev' s' g' =>
             k prev' s'
               (set_group n (firstn (length s - length s') s) g'))
  | Opt r' =>
      match run r' prev s g k with
      | Some x => Some x
      | None => k prev s g
      end
  | Cat r1 r2 =>
      run r1 prev s g (fun prev' s' g' => run r2 prev' s' g' k)
  end.
End Matcher.

(** A match at the position: its groups and the text after it. *)
Definition match_here (r : regex) (prev : option ascii) (s : str)
  : option (groups * str) :=
  run r prev s no_groups (fun _ s' g => Some (g, s')).

(** [re.sub(r, repl, s)] from a position on: [skip] characters of a match
    found earlier are still to be passed.  None of the three patterns
    matches the empty string (see [pattern_consumes] below), so a match of
    no character is taken as no match. *)
Fixpoint sub_from (r : regex) (repl : groups -> str)
         (prev : option ascii) (skip : nat) (s : str) : str :=
  match s with
  | [] => []
  | c :: s' =>
      match skip with
      | S n => sub_from r repl (Some c) n s'
      | O =>
          match match_here r prev s with
          | Some (g, rest) =>
              match length s - length rest with
              | S n => repl g ++ sub_from r repl (Some c) n s'
              | O => c :: sub_from r repl (Some c) 0 s'
              end
          | None => c :: sub_from r repl (Some c) 0 s'
          end
      end
  end.

Definition re_sub (r : regex) (repl : groups -> str) (s : str) : str :=
  sub_from r repl None 0 s.

(** ** The rewriters *)

Definition is_comment (line : str) : bool :=
  startswith (lit "//") (strip line) || startswith (lit "*") (strip line).

(** The loop [for line in lines: ... result_lines.append(...)]. *)
Fixpoint for_lines (body : str -> str) (lines result_lines : list str)
  : list str :=
  match lines with
  | [] => result_lines
  | line :: rest => for_lines body rest (result_lines ++ [body line])
  end.

Definition not_char (c : ascii) : ascii -> bool :=
  fun a => negb (Ascii.eqb a c).

Module event_listeners.
(** [(\w+)\.addEventListener\(([^,]+),\s*([^,]+)(?:,\s*([^)]+))?\)] *)
Definition pattern : regex :=
  Cat (Group 1 (Plus is_word))
 (Cat (Lit (lit ".addEventListener("))
 (Cat (Group 2 (Plus (not_char ",")))
 (Cat (Lit (lit ","))
 (Cat (Star is_space)
 (Cat (Group 3 (Plus (not_char ",")))
 (Cat (Opt (Cat (Lit (lit ","))
           (Cat (Star is_space)
                (Group 4 (Plus (not_char ")"))))))
      (Lit (lit ")")))))))).

(** A group in an f-string: a group that took no part reads [None]. *)
Definition group (g : groups) (n : nat) : str :=
  match g n with
  | Some v => v
  | None => lit "None"
  end.

Definition replacer (g : groups) : str :=
  let element := group g 1 in
  let event := group g 2 in
  let handler := group g 3 in
  let options := match g 4 with
                 | Some (c :: v) => c :: v
                 | _ => []
                 end in
  match options with
  | _ :: _ =>
      lit "(window.eventListenerManager ? "
      ++ lit "window.eventListenerManager.add(" ++ element ++ lit ", "
      ++ event ++ lit ", " ++ handler ++ lit ", " ++ options ++ lit ") : "
      ++ element ++ lit ".addEventListener(" ++ event ++ lit ", "
      ++ handler ++ lit ", " ++ options ++ lit "))"
  | [] =>
      lit "(window.eventListenerManager ? "
      ++ lit "window.eventListenerManager.add(" ++ element ++ lit ", "
      ++ event ++ lit ", " ++ handler ++ lit ") : "
      ++ element ++ lit ".addEventListener(" ++ event ++ lit ", "
      ++ handler ++ lit "))"
  end.

Definition body (line : str) : str :=
  if is_comment line then line
  else re_sub pattern replacer line.
End event_listeners.

Definition fix_event_listeners (content : str) (filename : string) : str :=
  let lines := split newline content in
  join [newline] (for_lines event_listeners.body lines []).

Module timeouts.
(** [\bsetTimeout\(] *)
Definition pattern : regex := Cat Bound (Lit (lit "setTimeout(")).

Definition replacer (_ : groups) : str :=
  lit "(window.timerManager ? window.timerManager.setTimeout : setTimeout)(".

Definition body (line : str) : str :=
  if is_comment line then line
  else if contains (lit "timerManager.setTimeout") line
          || contains (lit "window.setTimeout") line then line
  else re_sub pattern replacer line.
End timeouts.

Definition fix_timeouts (content : str) (filename : string) : str :=
  let lines := split newline content in
  join [newline] (for_lines timeouts.body lines []).

Module intervals.
(** [\bsetInterval\(] *)
Definition pattern : regex := Cat Bound (Lit (lit "setInterval(")).

Definition replacer (_ : groups) : str :=
  lit "(window.timerManager ? window.timerManager.setInterval : setInterval)(".

Definition body (line : str) : str :=
  if is_comment line then line
  else if contains (lit "timerManager.setInterval") line
          || contains (lit "window.setInterval") line then line
  else re_sub pattern replacer line.
End intervals.

Definition fix_intervals (content : str) (filename : string) : str :=
  let lines := split newline content in
  join [newline] (for_lines intervals.body lines []).

(** The three passes in the order of [process_file]. *)
Definition apply_fixes (content : str) (filename : string) : str :=
  let content := fix_event_listeners content filename in
  let content := fix_timeouts content filename in
  fix_intervals content filename.

(** ** Files, console and the driver *)

(** A path by its parts; [filepath.name] is the last one. *)
Definition path := list string.

Definition name (p : path) : string := List.last p EmptyString.

Definition EXCLUDE_FILES : gset string :=
  {[ "EventListenerManager.js"%string; "TimerManager.js"%string ]}.

Record file := File { content : str; mtime : nat }.

(** The file system, and a clock that stamps every write. *)
Record world := World { files : gmap path file; clock : nat }.

Inductive message : Type :=
| Starting
| ProcessingIn
| Blank
| Skipping (filename : string)
| Processing (filename : string)
| Fixed (filename : string)
| NoChanges (filename : string)
| Summary
| TotalFiles (n : Z)
| FilesModified (n : Z)
| FilesSkipped (n : Z)
| Done.

Inductive event : Type :=
| Print (m : message)
| OpenRead (p : path)
| OpenWrite (p : path).

Inductive error : Type :=
| FileNotFoundError (p : path).

Inductive outcome (A : Type) : Type :=
| Returned (a : A)
| Raised (e : error).
Arguments Returned {A} a.
Arguments Raised {A} e.

(** A statement: from a world to an outcome, the next world and the events
    it gave rise to, in order. *)
Definition io (A : Type) : Type := world -> outcome A * world * list event.

Definition ret {A} (a : A) : io A := fun w => (Returned a, w, []).

Definition bind {A B} (m : io A) (f : A -> io B) : io B :=
  fun w =>
    match m w with
    | (Returned a, w', evs) =>
        match f a w' with
        | (o, w'', evs') => (o, w'', evs ++ evs')
        end
    | (Raised e, w', evs) => (Raised e, w', evs)
    end.

Notation "x <- m ;; k" := (bind m (fun x => k))
  (at level 100, m at next level, right associativity).
Notation "m ;;; k" := (bind m (fun _ => k))
  (at level 100, right associativity).

Definition print (m : message) : io unit :=
  fun w => (Returned tt, w, [Print m]).

(** [open(filepath, 'r')] and [f.read()]: a file that is not there raises;
    a file that is there holds text (its decoding is not part of the
    model). *)
Definition read_text (p : path) : io str :=
  fun w =>
    match files w !! p with
    | Some f => (Returned (content f), w, [OpenRead p])
    | None => (Raised (FileNotFoundError p), w, [OpenRead p])
    end.

(** [open(filepath, 'w')] and [f.write(text)]: the file is made or
    replaced as a whole and stamped with the clock, which moves on. *)
Definition write_text (p : path) (text : str) : io unit :=
  fun w =>
    (Returned tt,
     World (<[p := File text (clock w)]> (files w)) (S (clock w)),
     [OpenWrite p]).

Definition process_file (filepath : path) : io bool :=
  let filename := name filepath in
  if bool_decide (filename ∈ EXCLUDE_FILES) then
    print (Skipping filename) ;;;
    ret false
  else
    print (Processing filename) ;;;
    content <- read_text filepath ;;
    let original_content := content in
    let content := fix_event_listeners content filename in
    let content := fix_timeouts content filename in
    let content := fix_intervals content filename in
    if bool_decide (content <> original_content) then
      write_text filepath content ;;;
      print (Fixed filename) ;;;
      ret true
    else
      print (NoChanges filename) ;;;
      ret false.

(** The loop of [main] over [js_files]. *)
Fixpoint main_loop (js_files : list path) (fixed_count total_count : Z)
  : io (Z * Z) :=
  match js_files with
  | [] => ret (fixed_count, total_count)
  | filepath :: rest =>
      let total_count := (total_count + 1)%Z in
      modified <- process_file filepath ;;
      main_loop rest
                (if modified then (fixed_count + 1)%Z else fixed_count)
                total_count
  end.

(** [main], given what the two directory listings [glob("*.js")] and
    [glob("**/*.js")] of the public directory return. *)
Definition main (top deep : list path) : io unit :=
  print Starting ;;;
  print ProcessingIn ;;;
  print Blank ;;;
  let js_files := top ++ deep in
  counts <- main_loop js_files 0%Z 0%Z ;;
  let fixed_count := fst counts in
  let total_count := snd counts in
  print Blank ;;;
  print Summary ;;;
  print (TotalFiles total_count) ;;;
  print (FilesModified fixed_count) ;;;
  print (FilesSkipped (total_count - fixed_count)%Z) ;;;
  print Blank ;;;
  print Done.

(** * Vocabulary of the properties *)

(** ** Lines *)

Definition no_newline (s : str) : Prop := Forall (fun c => c <> newline) s.

(** The shape shared by the three rewriters: the lines of the content, each
    through the body of the loop, joined again. *)
Definition per_line (body : str -> str) (content : str) : str :=
  join [newline] (map body (split newline content)).

(** ** Matches *)

(** The least number of characters a match takes. *)
Fixpoint min_len (r : regex) : nat :=
  match r with
  | Lit l => length l
  | Plus _ => 1
  | Star _ | Bound | Opt _ => 0
  | Group _ r' => min_len r'
  | Cat r1 r2 => min_len r1 + min_len r2
  end.

(** Every group that took part holds characters of the kind [P] only. *)
Definition groups_all (P : ascii -> Prop) (g : groups) : Prop :=
  forall n v, g n = Some v -> Forall P v.

(** Both timer patterns are a word boundary followed by literal text. *)
Definition timer_pattern (w : str) : regex := Cat Bound (Lit w).

(** The character before the position after [l] has been passed. *)
Fixpoint lastc (prev : option ascii) (l : str) : option ascii :=
  match l with
  | [] => prev
  | c :: l' => lastc (Some c) l'
  end.

(** [timer_pattern w] matches at the position. *)
Definition matches (w : str) (prev : option ascii) (s : str) : bool :=
  xorb (word_at prev) (word_at (head s)) && startswith w s.

(** [clash w l]: the texts [w] and [l] differ at a position both have, so
    [w] starts no text that starts with [l]. *)
Fixpoint clash (w l : str) : bool :=
  match w, l with
  | a :: w', b :: l' => negb (Ascii.eqb a b) || clash w' l'
  | _, _ => false
  end.

(** [inert w l]: [w] clashes with every non-empty end of [l], so no
    occurrence of [w] begins inside [l], whatever follows [l]. *)
Fixpoint inert (w l : str) : bool :=
  match l with
  | [] => true
  | _ :: l' => clash w l && inert w l'
  end.

(** [free w prev s]: [timer_pattern w] matches at no position of [s]. *)
Fixpoint free (w : str) (prev : option ascii) (s : str) : bool :=
  match s with
  | [] => true
  | c :: s' => negb (matches w prev s) && free w (Some c) s'
  end.

(** All characters of [q] but the last are word characters. *)
Fixpoint init_word (q : str) : bool :=
  match q with
  | e :: ((_ :: _) as q') => is_word e && init_word q'
  | _ => true
  end.

(** ** Two runs *)


(** ** Files and events *)

Definition excluded (p : path) : bool :=
  bool_decide (name p ∈ EXCLUDE_FILES).

(** The event does not open the file at [p]. *)
Definition no_open (p : path) (e : event) : Prop :=
  e <> OpenRead p /\ e <> OpenWrite p.

(** A statement that leaves the file at [p] as it is and does not open it. *)
Definition leaves {A : Type} (p : path) (m : io A) : Prop :=
  forall w,
    files (m w).1.2 !! p = files w !! p /\ Forall (no_open p) (m w).2.

(** The number of printed messages of the kind [P]. *)
Fixpoint count_prints (P : message -> bool) (evs : list event) : nat :=
  match evs with
  | [] => 0
  | Print m :: evs' => (if P m then 1 else 0) + count_prints P evs'
  | _ :: evs' => count_prints P evs'
  end.

Definition is_fixed (m : message) : bool :=
  match m with Fixed _ => true | _ => false end.

Definition is_skipping (m : message) : bool :=
  match m with Skipping _ => true | _ => false end.

Definition is_no_changes (m : message) : bool :=
  match m with NoChanges _ => true | _ => false end.

(** A listed path that [process_file] can deal with: it is excluded, or the
    file is there to be read. *)
Definition listed_ok (w : world) (p : path) : Prop :=
  excluded p = true \/ is_Some (files w !! p).

Definition summary_prints (total modified : Z) : list event :=
  [Print Blank; Print Summary; Print (TotalFiles total);
   Print (FilesModified modified);
   Print (FilesSkipped (total - modified)%Z); Print Blank; Print Done].

(** The run of [main] over the listed paths: what the loop prints between
    the heading and the summary, and the numbers of the summary. *)
Definition run_summary (top deep : list path) (w : world) : Prop :=
  exists w' evs,
    let total := Z.of_nat (length (top ++ deep)) in
    let modified := Z.of_nat (count_prints is_fixed evs) in
    main top deep w
    = (Returned tt, w',
       [Print Starting; Print ProcessingIn; Print Blank] ++ evs
       ++ summary_prints total modified)
    /\ (total - modified)%Z
       = Z.of_nat (count_prints is_skipping evs
                   + count_prints is_no_changes evs)
    /\ count_prints is_skipping evs
       = length (List.filter excluded (top ++ deep)).

(** The summary as the specification words it: the total counts the files
    that were processed, the excluded ones left out, and the skipped files
    are the processed ones that were not modified. *)
Definition summary_leaves_out_excluded (top deep : list path) (w : world)
  : Prop :=
  let evs := (main top deep w).2 in
  let processed :=
    List.filter (fun p => negb (excluded p)) (top ++ deep) in
  In (Print (TotalFiles (Z.of_nat (length processed)))) evs
  /\ In (Print (FilesSkipped (Z.of_nat (count_prints is_no_changes evs))))
        evs.

(** ** Inputs of the examples *)

Definition two_lines : str :=
  lit "el.addEventListener('x', f);" ++ [newline]
  ++ lit "  // el.addEventListener('x', f); setTimeout(f, 1); setInterval(f, 1)".

Definition rewrapped : str :=
  lit "window.setTimeout.addEventListener(a, setTimeout(b, setInterval(c".


Definition comments_only : str :=
  lit "// el.addEventListener('x', f);" ++ [newline]
  ++ lit " * el.addEventListener('y', g)".

Definition commented_world : world :=
  World {[ ["public"; "notes.js"]%string := File comments_only 7 ]} 8.

(** [game.js] and [TimerManager.js] in the public directory. *)
Definition managed_world : world :=
  World (<[ ["public"; "game.js"]%string :=
              File (lit "setTimeout(tick, 16);") 3 ]>
         {[ ["public"; "TimerManager.js"]%string :=
              File (lit "setTimeout(fn, delay);") 2 ]}) 4.

(** What either listing of the public directory returns for it. *)
Definition managed_listing : list path :=
  [ ["public"; "game.js"]; ["public"; "TimerManager.js"] ]%string.

(** ** Further vocabulary *)

(** [w] does not overlap itself: no proper non-empty end of [w] starts
    [w]. *)
Definition unbordered (w : str) : bool :=
  forallb (fun k => clash (skipn k w) w) (seq 1 (length w - 1)).

(** A statement that neither makes nor removes a file. *)
Definition keeps_files {A : Type} (m : io A) : Prop :=
  forall w, dom (files (m w).1.2) = dom (files w).

(** The messages of the summary block. *)
Definition is_summary (m : message) : bool :=
  match m with
  | Summary | TotalFiles _ | FilesModified _ | FilesSkipped _ | Done => true
  | _ => false
  end.

(** A run of the class [p] ends before [rest]. *)
Definition stops (p : ascii -> bool) (rest : str) : bool :=
  match rest with
  | [] => true
  | d :: _ => negb (p d)
  end.

(** Neither a comma nor a closing parenthesis. *)
Definition plain (c : ascii) : bool := not_char "," c && not_char ")" c.

(** The groups of a match with element, event and handler. *)
Definition call_groups (element event handler : str) : groups :=
  set_group 3 handler (set_group 2 event (set_group 1 element no_groups)).

(** The groups of a match that has options as well. *)
Definition call_groups_options (element event handler options : str)
  : groups :=
  set_group 4 options (call_groups element event handler).

(** * Properties *)

(** ** Text *)

Lemma forallb_no_newline (s : str) :
  forallb (not_char newline) s = true -> no_newline s.
Proof.
  unfold no_newline. induction s as [|c s IH]; simpl; intros H.
  - constructor.
  - apply andb_prop in H as [Hc Hs]. constructor; [|auto].
    unfold not_char in Hc. intros ->. now rewrite Ascii.eqb_refl in Hc.
Qed.

Lemma no_newline_app (a b : str) :
  no_newline a -> no_newline b -> no_newline (a ++ b).
Proof. unfold no_newline. intros Ha Hb. apply List.Forall_app. now split. Qed.

Lemma split_not_nil (sep : ascii) (s : str) : split sep s <> [].
Proof.
  destruct s as [|c s]; simpl; [discriminate|].
  destruct (Ascii.eqb c sep); [discriminate|].
  destruct (split sep s); discriminate.
Qed.

Lemma join_split (sep : ascii) (s : str) : join [sep] (split sep s) = s.
Proof.
  induction s as [|c s IH]; simpl; [reflexivity|].
  destruct (Ascii.eqb_spec c sep) as [->|Hne].
  - pose proof (split_not_nil sep s) as Hnn.
    destruct (split sep s) as [|l ls]; [congruence|].
    simpl. simpl in IH. now rewrite IH.
  - pose proof (split_not_nil sep s) as Hnn.
    destruct (split sep s) as [|l ls]; [congruence|].
    destruct ls as [|l' ls]; simpl in *; now rewrite IH.
Qed.

Lemma split_lines_no_newline (s : str) :
  Forall no_newline (split newline s).
Proof.
  induction s as [|c s IH]; simpl.
  - repeat constructor.
  - destruct (Ascii.eqb_spec c newline) as [->|Hne].
    + constructor; [constructor | exact IH].
    + destruct (split newline s) as [|l ls]; [repeat constructor; auto|].
      inversion IH; subst. constructor; [constructor|]; auto.
Qed.

Lemma split_one_line (l : str) : no_newline l -> split newline l = [l].
Proof.
  induction 1 as [|c l Hc Hl IH]; simpl; [reflexivity|].
  destruct (Ascii.eqb_spec c newline); [contradiction|]. now rewrite IH.
Qed.

Lemma split_app_newline (l t : str) :
  no_newline l -> split newline (l ++ newline :: t) = l :: split newline t.
Proof.
  induction 1 as [|c l Hc Hl IH]; simpl.
  - reflexivity.
  - destruct (Ascii.eqb_spec c newline); [contradiction|]. now rewrite IH.
Qed.

Lemma split_join (ls : list str) :
  ls <> [] -> Forall no_newline ls ->
  split newline (join [newline] ls) = ls.
Proof.
  intros Hnn Hall. induction Hall as [|l ls Hl Hls IH]; [congruence|].
  destruct ls as [|l' ls].
  - simpl. now apply split_one_line.
  - change (join [newline] (l :: l' :: ls))
      with (l ++ newline :: join [newline] (l' :: ls)).
    rewrite split_app_newline by assumption.
    f_equal. apply IH. discriminate.
Qed.

Lemma startswith_app (p s t : str) :
  startswith p s = true -> startswith p (s ++ t) = true.
Proof.
  revert s. induction p as [|a p IH]; intros [|b s]; simpl; try easy.
  intros H. apply andb_prop in H as [-> H]. simpl. auto.
Qed.

Lemma startswith_self_app (p t : str) : startswith p (p ++ t) = true.
Proof.
  induction p as [|a p IH]; simpl; [reflexivity|].
  now rewrite Ascii.eqb_refl.
Qed.

Lemma startswith_split (p s : str) :
  startswith p s = true -> exists t, s = p ++ t.
Proof.
  revert s. induction p as [|a p IH]; intros s H.
  - now exists s.
  - destruct s as [|b s]; simpl in H; [discriminate|].
    apply andb_prop in H as [Hab H]. apply Ascii.eqb_eq in Hab as ->.
    destruct (IH _ H) as [t ->]. now exists t.
Qed.

Lemma startswith_contains (p s : str) :
  startswith p s = true -> contains p s = true.
Proof. intros H. destruct s; simpl in *; now rewrite H. Qed.

Lemma contains_app_l (p s t : str) :
  contains p s = true -> contains p (s ++ t) = true.
Proof.
  induction s as [|c s IH]; simpl; intros H.
  - rewrite orb_false_r in H. destruct p; [|discriminate].
    destruct t; reflexivity.
  - apply orb_prop in H as [H|H].
    + change (c :: s ++ t) with ((c :: s) ++ t).
      now rewrite (startswith_app _ _ t H).
    + rewrite (IH H). apply orb_true_r.
Qed.

Lemma contains_app_r (p s t : str) :
  contains p t = true -> contains p (s ++ t) = true.
Proof.
  intros H. induction s as [|c s IH]; simpl; [exact H|].
  rewrite IH. apply orb_true_r.
Qed.

(** ** The loop is a map over the lines *)

Lemma for_lines_map (body : str -> str) (lines acc : list str) :
  for_lines body lines acc = acc ++ map body lines.
Proof.
  revert acc. induction lines as [|l ls IH]; intros acc; simpl.
  - now rewrite app_nil_r.
  - rewrite IH, <- app_assoc. reflexivity.
Qed.

Lemma fix_event_listeners_per_line (content : str) (filename : string) :
  fix_event_listeners content filename
  = per_line event_listeners.body content.
Proof. unfold fix_event_listeners. now rewrite for_lines_map. Qed.

Lemma fix_timeouts_per_line (content : str) (filename : string) :
  fix_timeouts content filename = per_line timeouts.body content.
Proof. unfold fix_timeouts. now rewrite for_lines_map. Qed.

Lemma fix_intervals_per_line (content : str) (filename : string) :
  fix_intervals content filename = per_line intervals.body content.
Proof. unfold fix_intervals. now rewrite for_lines_map. Qed.

Section PerLine.
Variable body : str -> str.
Hypothesis body_no_newline : forall l, no_newline l -> no_newline (body l).

Lemma split_per_line (content : str) :
  split newline (per_line body content)
  = map body (split newline content).
Proof.
  unfold per_line. apply split_join.
  - pose proof (split_not_nil newline content).
    destruct (split newline content); [congruence | discriminate].
  - pose proof (split_lines_no_newline content) as H.
    induction H; simpl; constructor; auto.
Qed.

Lemma per_line_fixed (content : str) :
  (forall l, In l (split newline content) -> body l = l) ->
  per_line body content = content.
Proof.
  intros H. unfold per_line.
  rewrite <- (join_split newline content) at 2. f_equal.
  induction (split newline content) as [|l ls IH]; simpl; [reflexivity|].
  rewrite H by now left. f_equal. apply IH. intros; apply H; now right.
Qed.
End PerLine.

(** ** The matcher

    Whatever the pattern, the rest of the pattern is entered only at a
    position further into the text, and every group holds text of the
    input: a property of the characters of the input is a property of the
    characters of every group. *)

Section MatcherInvariant.
Context {A : Type}.
Variable P : ascii -> Prop.

Lemma groups_all_none : groups_all P no_groups.
Proof. intros n v H. discriminate. Qed.

Lemma groups_all_set (n : nat) (v : str) (g : groups) :
  Forall P v -> groups_all P g -> groups_all P (set_group n v g).
Proof.
  intros Hv Hg i u. unfold set_group.
  destruct (Nat.eqb i n); [intros [= <-]; exact Hv | apply Hg].
Qed.

Lemma eat_inv (l : str) :
  forall prev s prev' s',
    eat l prev s = Some (prev', s') ->
    Forall P s -> Forall P s' /\ length s' + length l = length s.
Proof.
  induction l as [|a l IH]; intros prev s prev' s'; simpl.
  - intros [= <- <-]. auto.
  - destruct s as [|b s]; [discriminate|].
    destruct (Ascii.eqb a b); [|discriminate].
    intros He Hs. inversion Hs as [|? ? Hb Hs']; subst.
    destruct (IH _ _ _ _ He Hs') as [Hall Hlen].
    split; [assumption | simpl; lia].
Qed.

Lemma star_inv (p : ascii -> bool) (k : option ascii -> str -> option A) :
  forall s prev x,
    Forall P s -> star p prev s k = Some x ->
    exists prev' s',
      k prev' s' = Some x /\ Forall P s' /\ length s' <= length s.
Proof.
  induction s as [|c s IH]; intros prev x Hs; simpl.
  - intros H. exists prev, []. auto.
  - inversion Hs as [|? ? Hc Hs']; subst. destruct (p c).
    + destruct (star p (Some c) s k) eqn:E.
      * intros [= ->]. destruct (IH _ _ Hs' E) as (prev' & s' & ? & ? & ?).
        exists prev', s'. repeat split; auto.
      * intros H. exists prev, (c :: s). auto.
    + intros H. exists prev, (c :: s). auto.
Qed.

Lemma plus_inv (p : ascii -> bool) (k : option ascii -> str -> option A) :
  forall s prev x,
    Forall P s -> plus p prev s k = Some x ->
    exists prev' s',
      k prev' s' = Some x /\ Forall P s' /\ length s' + 1 <= length s.
Proof.
  intros [|c s] prev x Hs; simpl; [discriminate|].
  destruct (p c); [|discriminate]. intros H.
  inversion Hs as [|? ? Hc Hs']; subst.
  destruct (star_inv _ _ _ _ _ Hs' H) as (prev' & s' & ? & ? & ?).
  exists prev', s'. repeat split; auto. lia.
Qed.

Lemma run_inv (r : regex) :
  forall prev s g (k : option ascii -> str -> groups -> option A) x,
    Forall P s -> groups_all P g -> run r prev s g k = Some x ->
    exists prev' s' g',
      k prev' s' g' = Some x /\ Forall P s' /\ groups_all P g'
      /\ length s' + min_len r <= length s.
Proof.
  induction r as [l|p|p| |n r IH|r IH|r1 IH1 r2 IH2];
    intros prev s g k x Hs Hg; simpl.
  - destruct (eat l prev s) as [[prev' s']|] eqn:E; [|discriminate].
    intros H. destruct (eat_inv _ _ _ _ _ E Hs) as [? ?].
    exists prev', s', g. repeat split; auto. lia.
  - intros H. apply plus_inv in H as (prev' & s' & ? & ? & ?); [|assumption].
    exists prev', s', g. auto.
  - intros H. apply star_inv in H as (prev' & s' & ? & ? & ?); [|assumption].
    exists prev', s', g. repeat split; auto. lia.
  - destruct (xorb _ _); [|discriminate]. intros H.
    exists prev, s, g. repeat split; auto. lia.
  - intros H. apply IH in H as (prev' & s' & g' & H & ? & ? & ?); auto.
    eexists prev', s', _. repeat split; [exact H| | |]; auto.
    apply groups_all_set; [|assumption].
    apply Forall_take. assumption.
  - destruct (run r prev s g k) eqn:E.
    + intros [= ->]. apply IH in E as (prev' & s' & g' & ? & ? & ? & ?); auto.
      exists prev', s', g'. repeat split; auto. lia.
    + intros H. exists prev, s, g. repeat split; auto. lia.
  - intros H. apply IH1 in H as (p1 & s1 & g1 & H & ? & ? & ?); auto.
    apply IH2 in H as (p2 & s2 & g2 & H & ? & ? & ?); auto.
    exists p2, s2, g2. repeat split; auto. lia.
Qed.
End MatcherInvariant.

Lemma match_here_inv (P : ascii -> Prop) (r : regex) prev s g rest :
  Forall P s -> match_here r prev s = Some (g, rest) ->
  groups_all P g /\ Forall P rest /\ length rest + min_len r <= length s.
Proof.
  intros Hs H. unfold match_here in H.
  apply (run_inv P) in H as (prev' & s' & g' & [= <- <-] & ? & ? & ?);
    auto using groups_all_none.
Qed.

(** A match of one of the three patterns is never empty. *)
Lemma pattern_consumes (r : regex) prev s g rest :
  r = event_listeners.pattern \/ r = timeouts.pattern
  \/ r = intervals.pattern ->
  match_here r prev s = Some (g, rest) -> length rest < length s.
Proof.
  intros Hr H.
  apply (match_here_inv (fun _ => True)) in H as (_ & _ & H).
  - assert (0 < min_len r) by (destruct Hr as [->|[->| ->]]; vm_compute; lia).
    lia.
  - apply Forall_forall. auto.
Qed.

Section Substitution.
Variable P : ascii -> Prop.
Variable r : regex.
Variable repl : groups -> str.
Hypothesis repl_all : forall g, groups_all P g -> Forall P (repl g).

Lemma sub_from_all (s : str) :
  forall prev skip, Forall P s -> Forall P (sub_from r repl prev skip s).
Proof.
  induction s as [|c s IH]; intros prev skip Hs; simpl; [constructor|].
  inversion Hs as [|? ? Hc Hs']; subst. destruct skip as [|n]; [|auto].
  destruct (match_here r prev (c :: s)) as [[g rest]|] eqn:E.
  - apply (match_here_inv P) in E as (Hg & _ & _); [|assumption].
    destruct (_ - _).
    + constructor; auto.
    + apply List.Forall_app. split; auto.
  - constructor; auto.
Qed.
End Substitution.

(** ** The line bodies keep a line a line *)

Ltac lit_no_newline := apply forallb_no_newline; vm_compute; reflexivity.

Lemma event_replacer_no_newline (g : groups) :
  groups_all (fun c => c <> newline) g ->
  no_newline (event_listeners.replacer g).
Proof.
  intros Hg. unfold event_listeners.replacer, event_listeners.group.
  assert (H1 : no_newline match g 1 with Some v => v | None => lit "None" end)
    by (destruct (g 1) eqn:E; [exact (Hg _ _ E) | lit_no_newline]).
  assert (H2 : no_newline match g 2 with Some v => v | None => lit "None" end)
    by (destruct (g 2) eqn:E; [exact (Hg _ _ E) | lit_no_newline]).
  assert (H3 : no_newline match g 3 with Some v => v | None => lit "None" end)
    by (destruct (g 3) eqn:E; [exact (Hg _ _ E) | lit_no_newline]).
  destruct (g 4) as [[|c v]|] eqn:E4;
    repeat (apply no_newline_app;
            [first [assumption | exact (Hg _ _ E4) | lit_no_newline]|]);
    lit_no_newline.
Qed.

Lemma event_body_no_newline (l : str) :
  no_newline l -> no_newline (event_listeners.body l).
Proof.
  intros Hl. unfold event_listeners.body.
  destruct (is_comment l); [assumption|].
  apply sub_from_all; [apply event_replacer_no_newline | assumption].
Qed.

Lemma timeouts_body_no_newline (l : str) :
  no_newline l -> no_newline (timeouts.body l).
Proof.
  intros Hl. unfold timeouts.body.
  destruct (is_comment l); [assumption|].
  destruct (_ || _); [assumption|].
  apply sub_from_all; [intros; lit_no_newline | assumption].
Qed.

Lemma intervals_body_no_newline (l : str) :
  no_newline l -> no_newline (intervals.body l).
Proof.
  intros Hl. unfold intervals.body.
  destruct (is_comment l); [assumption|].
  destruct (_ || _); [assumption|].
  apply sub_from_all; [intros; lit_no_newline | assumption].
Qed.

Create HintDb lines.
#[local] Hint Resolve event_body_no_newline timeouts_body_no_newline
  intervals_body_no_newline : lines.

(** ** A timer substitution leaves the line alone or leaves its mark *)

Section TimerSubstitution.
Variable r : regex.
Variable replacement guard : str.
Hypothesis guard_in_replacement : contains guard replacement = true.

Lemma sub_from_same_or_marked (s : str) :
  forall prev skip,
    sub_from r (fun _ => replacement) prev skip s = skipn skip s
    \/ contains guard (sub_from r (fun _ => replacement) prev skip s) = true.
Proof.
  induction s as [|c s IH]; intros prev skip.
  - left. simpl. now rewrite skipn_nil.
  - simpl. destruct skip as [|n]; [|apply IH].
    assert (Hstep : c :: sub_from r (fun _ => replacement) (Some c) 0 s
                    = c :: s
                    \/ contains guard
                         (c :: sub_from r (fun _ => replacement) (Some c) 0 s)
                       = true).
    { destruct (IH (Some c) 0) as [H|H].
      - left. now rewrite H.
      - right. simpl. rewrite H. apply orb_true_r. }
    destruct (match_here r prev (c :: s)) as [[g rest]|]; [|exact Hstep].
    destruct (_ - _); [exact Hstep|].
    right. now apply contains_app_l.
Qed.

Lemma re_sub_same_or_marked (s : str) :
  re_sub r (fun _ => replacement) s = s
  \/ contains guard (re_sub r (fun _ => replacement) s) = true.
Proof. apply (sub_from_same_or_marked s None 0). Qed.
End TimerSubstitution.

Lemma timeouts_body_idempotent (l : str) :
  timeouts.body (timeouts.body l) = timeouts.body l.
Proof.
  unfold timeouts.body at 2 3.
  destruct (is_comment l) eqn:Hc.
  { unfold timeouts.body. now rewrite Hc. }
  destruct (_ || _) eqn:Hg.
  { unfold timeouts.body. now rewrite Hc, Hg. }
  destruct (re_sub_same_or_marked timeouts.pattern
              (timeouts.replacer no_groups)
              (lit "timerManager.setTimeout") eq_refl l) as [H|H];
    change (fun _ : groups => timeouts.replacer no_groups)
      with timeouts.replacer in H.
  - rewrite H. unfold timeouts.body. now rewrite Hc, Hg.
  - unfold timeouts.body. rewrite H, orb_true_l.
    destruct (is_comment (re_sub _ _ _)); reflexivity.
Qed.

Lemma intervals_body_idempotent (l : str) :
  intervals.body (intervals.body l) = intervals.body l.
Proof.
  unfold intervals.body at 2 3.
  destruct (is_comment l) eqn:Hc.
  { unfold intervals.body. now rewrite Hc. }
  destruct (_ || _) eqn:Hg.
  { unfold intervals.body. now rewrite Hc, Hg. }
  destruct (re_sub_same_or_marked intervals.pattern
              (intervals.replacer no_groups)
              (lit "timerManager.setInterval") eq_refl l) as [H|H];
    change (fun _ : groups => intervals.replacer no_groups)
      with intervals.replacer in H.
  - rewrite H. unfold intervals.body. now rewrite Hc, Hg.
  - unfold intervals.body. rewrite H, orb_true_l.
    destruct (is_comment (re_sub _ _ _)); reflexivity.
Qed.

Lemma per_line_compose (f h : str -> str) (content : str) :
  (forall l, no_newline l -> no_newline (h l)) ->
  per_line f (per_line h content)
  = per_line (fun l => f (h l)) content.
Proof.
  intros Hh. unfold per_line at 1.
  rewrite split_per_line by assumption.
  unfold per_line. now rewrite map_map.
Qed.

Lemma per_line_ext (f h : str -> str) (content : str) :
  (forall l, f l = h l) -> per_line f content = per_line h content.
Proof.
  intros H. unfold per_line. f_equal. apply map_ext. exact H.
Qed.

(** ** Substitution of a timer pattern, step by step

    Both timer patterns are a word boundary followed by literal text.  At a
    position the substitution either finds the literal (with a boundary
    before it), writes the replacement and goes on after the literal, or
    copies one character. *)

Lemma eat_spec (w : str) :
  forall prev s,
    eat w prev s
    = if startswith w s then Some (lastc prev w, skipn (length w) s)
      else None.
Proof.
  induction w as [|a w IH]; intros prev s; simpl; [reflexivity|].
  destruct s as [|b s]; [reflexivity|].
  destruct (Ascii.eqb_spec a b) as [->|Hne]; simpl; [apply IH | reflexivity].
Qed.

Lemma match_here_timer (w : str) prev s :
  match_here (timer_pattern w) prev s
  = if matches w prev s then Some (no_groups, skipn (length w) s) else None.
Proof.
  unfold match_here, matches. simpl. rewrite eat_spec.
  destruct (xorb _ _); [|reflexivity].
  destruct (startswith w s); reflexivity.
Qed.

Lemma sub_from_skip (r : regex) (repl : groups -> str) (l : str) :
  forall prev rest,
    sub_from r repl prev (length l) (l ++ rest)
    = sub_from r repl (lastc prev l) 0 rest.
Proof.
  induction l as [|c l IH]; intros prev rest; simpl.
  - destruct rest; reflexivity.
  - apply IH.
Qed.

Lemma clash_startswith (w l rest : str) :
  clash w l = true -> startswith w (l ++ rest) = false.
Proof.
  revert l. induction w as [|a w IH]; intros [|b l]; simpl; try discriminate.
  destruct (Ascii.eqb a b); simpl; [apply IH | reflexivity].
Qed.

Lemma contains_inert (g l rest : str) :
  inert g l = true -> contains g (l ++ rest) = true ->
  contains g rest = true.
Proof.
  induction l as [|c l IH]; intros Hi Hc; [exact Hc|].
  cbn [inert] in Hi. apply andb_prop in Hi as [Hcl Hi].
  change ((c :: l) ++ rest) with (c :: (l ++ rest)) in Hc.
  cbn [contains] in Hc.
  change (c :: (l ++ rest)) with ((c :: l) ++ rest) in Hc.
  rewrite (clash_startswith _ _ rest Hcl) in Hc. simpl in Hc. auto.
Qed.

Lemma free_inert (w l : str) :
  forall prev rest,
    inert w l = true ->
    free w prev (l ++ rest) = free w (lastc prev l) rest.
Proof.
  induction l as [|c l IH]; intros prev rest Hi; [reflexivity|].
  cbn [inert] in Hi. apply andb_prop in Hi as [Hcl Hi].
  change ((c :: l) ++ rest) with (c :: (l ++ rest)). cbn [free lastc].
  rewrite <- (IH (Some c) rest Hi). unfold matches.
  change (c :: (l ++ rest)) with ((c :: l) ++ rest).
  rewrite (clash_startswith _ _ rest Hcl), andb_false_r. reflexivity.
Qed.

Section TimerSteps.
Variable a : ascii.
Variable w' : str.
Variable replacement : str.

Abbreviation w := (a :: w').
Abbreviation tsub := (sub_from (timer_pattern w) (fun _ => replacement)).

Lemma tsub_match prev rest :
  xorb (word_at prev) (is_word a) = true ->
  tsub prev 0 (w ++ rest) = replacement ++ tsub (lastc prev w) 0 rest.
Proof.
  intros Hb. change (w ++ rest) with (a :: (w' ++ rest)).
  cbn [sub_from]. rewrite match_here_timer.
  assert (Hm : matches w prev (a :: w' ++ rest) = true).
  { unfold matches. cbn [head word_at]. rewrite Hb.
    change (a :: w' ++ rest) with (w ++ rest).
    now rewrite startswith_self_app. }
  rewrite Hm.
  change (a :: w' ++ rest) with (w ++ rest).
  rewrite drop_app_length, length_app.
  replace (length w + length rest - length rest) with (S (length w'))
    by (simpl; lia).
  cbv iota beta. f_equal. apply (sub_from_skip _ _ w' (Some a) rest).
Qed.

Lemma tsub_step prev c s :
  matches w prev (c :: s) = false ->
  tsub prev 0 (c :: s) = c :: tsub (Some c) 0 s.
Proof.
  intros Hm. cbn [sub_from]. now rewrite match_here_timer, Hm.
Qed.

Lemma tsub_inert (l : str) :
  forall prev rest,
    inert w l = true ->
    tsub prev 0 (l ++ rest) = l ++ tsub (lastc prev l) 0 rest.
Proof.
  induction l as [|c l IH]; intros prev rest Hi; [reflexivity|].
  cbn [inert] in Hi. apply andb_prop in Hi as [Hcl Hi].
  change ((c :: l) ++ rest) with (c :: (l ++ rest)).
  rewrite tsub_step.
  - rewrite (IH (Some c) rest Hi). reflexivity.
  - unfold matches. change (c :: (l ++ rest)) with ((c :: l) ++ rest).
    rewrite (clash_startswith _ _ rest Hcl). apply andb_false_r.
Qed.

Lemma tsub_free (s : str) :
  forall prev, free w prev s = true -> tsub prev 0 s = s.
Proof.
  induction s as [|c s IH]; intros prev Hf; [reflexivity|].
  cbn [free] in Hf. apply andb_prop in Hf as [Hm Hf].
  apply negb_true_iff in Hm.
  rewrite tsub_step by assumption. now rewrite IH.
Qed.

Hypothesis replacement_differs :
  match replacement with
  | d :: _ => d <> a
  | [] => False
  end.

Lemma tsub_fixed_free (s : str) :
  forall prev, tsub prev 0 s = s -> free w prev s = true.
Proof.
  induction s as [|c s IH]; intros prev Hs; [reflexivity|].
  cbn [free]. destruct (matches w prev (c :: s)) eqn:Hm.
  - exfalso. pose proof Hm as Hm'. unfold matches in Hm'.
    apply andb_prop in Hm' as [Hb Hw].
    destruct (startswith_split _ _ Hw) as [rest Hrest].
    rewrite Hrest in Hs, Hb. rewrite (tsub_match prev rest Hb) in Hs.
    destruct replacement as [|d R]; [exact replacement_differs|].
    injection Hs as Hd _. now apply replacement_differs.
  - simpl. rewrite tsub_step in Hs by assumption.
    injection Hs as Hs. now apply IH.
Qed.
End TimerSteps.

(** ** One timer substitution seen by the other rewriter

    [w] and [replacement] are those of the substitution that runs; [g] is a
    text the other rewriter looks for (a guard), [v] the literal of the other
    pattern. *)

Section Interplay.
Variable a : ascii.
Variable w' : str.
Variable replacement : str.

Abbreviation w := (a :: w').
Abbreviation tsub := (sub_from (timer_pattern w) (fun _ => replacement)).

Section Guard.
Variable g : str.
Hypothesis guard_inert : inert w g = true.
Hypothesis literal_inert : inert g w = true.

(** An occurrence of the guard survives the substitution. *)
Lemma tsub_keeps_guard (n : nat) :
  forall s prev,
    length s <= n -> contains g s = true ->
    contains g (tsub prev 0 s) = true.
Proof.
  induction n as [|n IH]; intros s prev Hlen Hc.
  - destruct s; [exact Hc | simpl in Hlen; lia].
  - destruct s as [|c s]; [exact Hc|].
    destruct (startswith g (c :: s)) eqn:Hsw.
    + destruct (startswith_split _ _ Hsw) as [rest ->].
      rewrite tsub_inert by assumption.
      apply startswith_contains, startswith_self_app.
    + cbn [contains] in Hc. rewrite Hsw in Hc. simpl in Hc.
      destruct (matches w prev (c :: s)) eqn:Hm.
      * pose proof Hm as Hm'. unfold matches in Hm'.
        apply andb_prop in Hm' as [Hb Hw].
        destruct (startswith_split _ _ Hw) as [rest Hrest].
        rewrite Hrest in Hb |- *. rewrite (tsub_match _ _ _ _ _ Hb).
        apply contains_app_r. apply IH.
        -- apply (f_equal (@length ascii)) in Hrest.
           rewrite length_app in Hrest. simpl in Hrest, Hlen. lia.
        -- apply (contains_inert g w rest literal_inert).
           rewrite <- Hrest. cbn [contains]. rewrite Hc.
           apply orb_true_r.
      * rewrite tsub_step by assumption. cbn [contains].
        rewrite (IH s (Some c)); [apply orb_true_r| |assumption].
        simpl in Hlen. lia.
Qed.
End Guard.

Section OtherPattern.
Variable b : ascii.
Variable q : str.
Abbreviation v := (b :: q).

Hypothesis word_a : is_word a = true.
Hypothesis word_b : is_word b = true.
Hypothesis word_q : init_word q = true.
Hypothesis replacement_inert : inert v replacement = true.
Hypothesis literal_inert : inert v w = true.
Hypothesis same_last : forall p, lastc p replacement = lastc p w.

Lemma no_match_after_word prev d s :
  word_at prev = true -> matches w prev (d :: s) = false.
Proof.
  intros Hp. unfold matches. cbn [head word_at startswith]. rewrite Hp.
  destruct (Ascii.eqb_spec a d) as [<-|Hne]; simpl.
  - now rewrite word_a.
  - apply andb_false_r.
Qed.

(** After a word character the substitution writes nothing that the
    text did not have, as far as a word followed by one more character
    reaches. *)
Lemma tsub_prefix (q' : str) :
  forall prev s,
    word_at prev = true -> init_word q' = true ->
    startswith q' (tsub prev 0 s) = true -> startswith q' s = true.
Proof.
  induction q' as [|e q'' IH]; intros prev s Hp Hq Hs; [reflexivity|].
  destruct s as [|d s]; [exact Hs|].
  rewrite tsub_step in Hs by now apply no_match_after_word.
  cbn [startswith] in Hs |- *. apply andb_prop in Hs as [Hed Hs].
  rewrite Hed. simpl. destruct q'' as [|e' q'']; [reflexivity|].
  cbn [init_word] in Hq. apply andb_prop in Hq as [He Hq].
  apply (IH (Some d)); [|assumption|assumption].
  apply Ascii.eqb_eq in Hed as <-. exact He.
Qed.

(** The substitution gives the other pattern nothing new to match. *)
Lemma tsub_keeps_free (n : nat) :
  forall s prev,
    length s <= n -> free v prev s = true ->
    free v prev (tsub prev 0 s) = true.
Proof.
  induction n as [|n IH]; intros s prev Hlen Hf.
  - destruct s; [reflexivity | simpl in Hlen; lia].
  - destruct s as [|c s]; [reflexivity|].
    destruct (matches w prev (c :: s)) eqn:Hm.
    + pose proof Hm as Hm'. unfold matches in Hm'.
      apply andb_prop in Hm' as [Hb Hw].
      destruct (startswith_split _ _ Hw) as [rest Hrest].
      rewrite Hrest in Hb, Hf |- *. rewrite (tsub_match _ _ _ _ _ Hb).
      rewrite free_inert in Hf |- * by assumption.
      rewrite same_last. apply IH; [|assumption].
      apply (f_equal (@length ascii)) in Hrest.
      rewrite length_app in Hrest. simpl in Hrest, Hlen. lia.
    + rewrite tsub_step by assumption.
      cbn [free] in Hf |- *. apply andb_prop in Hf as [Hv Hf].
      rewrite (IH s (Some c)); [|simpl in Hlen; lia|assumption].
      rewrite andb_true_r. apply negb_true_iff. apply negb_true_iff in Hv.
      unfold matches in Hv |- *. cbn [head word_at] in Hv |- *.
      destruct (xorb (word_at prev) (is_word c)); [|reflexivity].
      simpl in Hv |- *.
      destruct (Ascii.eqb_spec b c) as [<-|Hne]; [|reflexivity].
      simpl in Hv |- *.
      destruct (startswith q (tsub (Some b) 0 s)) eqn:Hq; [|reflexivity].
      apply tsub_prefix in Hq; [congruence | exact word_b | exact word_q].
Qed.
End OtherPattern.
End Interplay.

(** What [fix_intervals] does to a line leaves [fix_timeouts] nothing to
    do that it had not to do before. *)
Lemma intervals_keeps_guard (g l : str) :
  inert (lit "setInterval(") g = true ->
  inert g (lit "setInterval(") = true ->
  contains g l = true ->
  contains g (re_sub intervals.pattern intervals.replacer l) = true.
Proof.
  intros H1 H2 Hc.
  exact (tsub_keeps_guard "s" (lit "etInterval(")
           (intervals.replacer no_groups) g H1 H2
           (length l) l None (le_n _) Hc).
Qed.

Lemma intervals_keeps_timeouts_free (l : str) :
  re_sub timeouts.pattern timeouts.replacer l = l ->
  re_sub timeouts.pattern timeouts.replacer
    (re_sub intervals.pattern intervals.replacer l)
  = re_sub intervals.pattern intervals.replacer l.
Proof.
  intros Hfix.
  apply (tsub_fixed_free "s" (lit "etTimeout(")
           (timeouts.replacer no_groups)) in Hfix;
    [|vm_compute; discriminate].
  apply (tsub_free "s" (lit "etTimeout(") (timeouts.replacer no_groups)).
  exact (tsub_keeps_free "s" (lit "etInterval(")
           (intervals.replacer no_groups) "s" (lit "etTimeout(")
           eq_refl eq_refl eq_refl eq_refl eq_refl (fun _ => eq_refl)
           (length l) l None (le_n _) Hfix).
Qed.

Lemma intervals_keeps_timeouts_fixed (l : str) :
  timeouts.body l = l ->
  timeouts.body (intervals.body l) = intervals.body l.
Proof.
  intros Hfix. unfold intervals.body.
  destruct (is_comment l) eqn:Hc; [exact Hfix|].
  destruct (_ || _); [exact Hfix|].
  unfold timeouts.body in Hfix |- *. rewrite Hc in Hfix.
  destruct (is_comment (re_sub _ _ _)); [reflexivity|].
  destruct (contains (lit "timerManager.setTimeout") l) eqn:G1.
  { rewrite (intervals_keeps_guard (lit "timerManager.setTimeout") l
               eq_refl eq_refl G1).
    reflexivity. }
  destruct (contains (lit "window.setTimeout") l) eqn:G2.
  { rewrite (intervals_keeps_guard (lit "window.setTimeout") l
               eq_refl eq_refl G2).
    rewrite orb_true_r. reflexivity. }
  simpl in Hfix.
  destruct (_ || _); [reflexivity|].
  now apply intervals_keeps_timeouts_free.
Qed.

(** ** The rewriters, line by line *)

Lemma split_fix_event_listeners (content : str) (filename : string) :
  split newline (fix_event_listeners content filename)
  = map event_listeners.body (split newline content).
Proof.
  rewrite fix_event_listeners_per_line. apply split_per_line.
  auto with lines.
Qed.

Lemma split_fix_timeouts (content : str) (filename : string) :
  split newline (fix_timeouts content filename)
  = map timeouts.body (split newline content).
Proof.
  rewrite fix_timeouts_per_line. apply split_per_line. auto with lines.
Qed.

Lemma split_fix_intervals (content : str) (filename : string) :
  split newline (fix_intervals content filename)
  = map intervals.body (split newline content).
Proof.
  rewrite fix_intervals_per_line. apply split_per_line. auto with lines.
Qed.

(** C9: every rewriter keeps the line structure: the lines of its output
    are, in order, the images of the lines of its input under one function
    of a single line (the body of its loop), so the output has as many lines
    as the input and each one depends on the input line at the same place
    only. *)
Theorem rewriters_preserve_lines (content : str) (filename : string) :
  split newline (fix_event_listeners content filename)
  = map event_listeners.body (split newline content)
  /\ split newline (fix_timeouts content filename)
     = map timeouts.body (split newline content)
  /\ split newline (fix_intervals content filename)
     = map intervals.body (split newline content).
Proof.
  split; [|split].
  - apply split_fix_event_listeners.
  - apply split_fix_timeouts.
  - apply split_fix_intervals.
Qed.

(** C1: a line of the input that is a comment (its stripped text starts
    with [//] or [*]) is, at the same place, a line of the output of each of
    the three rewriters, character for character. *)
Theorem comment_lines_unchanged
        (content : str) (filename : string) (i : nat) (line : str) :
  nth_error (split newline content) i = Some line ->
  is_comment line = true ->
  nth_error (split newline (fix_event_listeners content filename)) i
  = Some line
  /\ nth_error (split newline (fix_timeouts content filename)) i = Some line
  /\ nth_error (split newline (fix_intervals content filename)) i
     = Some line.
Proof.
  intros Hi Hc.
  rewrite split_fix_event_listeners, split_fix_timeouts, split_fix_intervals.
  repeat split.
  - rewrite (map_nth_error _ _ _ Hi).
    unfold event_listeners.body. now rewrite Hc.
  - rewrite (map_nth_error _ _ _ Hi). unfold timeouts.body. now rewrite Hc.
  - rewrite (map_nth_error _ _ _ Hi). unfold intervals.body. now rewrite Hc.
Qed.

Lemma comment_lines_unchanged_witness :
  let line :=
    lit "  // el.addEventListener('x', f); setTimeout(f, 1); setInterval(f, 1)"
  in
  nth_error (split newline (fix_event_listeners two_lines "game.js")) 1
  = Some line
  /\ nth_error (split newline (fix_timeouts two_lines "game.js")) 1
     = Some line
  /\ nth_error (split newline (fix_intervals two_lines "game.js")) 1
     = Some line.
Proof.
  apply (comment_lines_unchanged two_lines "game.js" 1); vm_compute;
    reflexivity.
Defined.

Lemma fix_timeouts_idempotent (content : str) (filename : string) :
  fix_timeouts (fix_timeouts content filename) filename
  = fix_timeouts content filename.
Proof.
  rewrite !fix_timeouts_per_line.
  rewrite per_line_compose by auto with lines.
  apply per_line_ext, timeouts_body_idempotent.
Qed.

Lemma fix_intervals_idempotent (content : str) (filename : string) :
  fix_intervals (fix_intervals content filename) filename
  = fix_intervals content filename.
Proof.
  rewrite !fix_intervals_per_line.
  rewrite per_line_compose by auto with lines.
  apply per_line_ext, intervals_body_idempotent.
Qed.

(** C2: each timer rewriter applied to its own output changes nothing: a
    line the first pass rewrote holds the manager-qualified name, and the
    second pass leaves such a line as it is. *)
Theorem timer_rewriters_idempotent (content : str) (filename : string) :
  fix_timeouts (fix_timeouts content filename) filename
  = fix_timeouts content filename
  /\ fix_intervals (fix_intervals content filename) filename
     = fix_intervals content filename.
Proof.
  split.
  - apply fix_timeouts_idempotent.
  - apply fix_intervals_idempotent.
Qed.

(** C10: the file name given to a rewriter has no part in its result. *)
Theorem rewriters_ignore_filename (content : str) (f1 f2 : string) :
  fix_event_listeners content f1 = fix_event_listeners content f2
  /\ fix_timeouts content f1 = fix_timeouts content f2
  /\ fix_intervals content f1 = fix_intervals content f2.
Proof. repeat split. Qed.

(** C4: the listener rewriter on [btn.addEventListener('click', onClick);]
    gives the conditional that hands [btn], ['click'], [onClick] in that
    order to the manager, or else makes the call as written; there is no
    options argument. *)
Theorem listener_example (filename : string) :
  fix_event_listeners (lit "btn.addEventListener('click', onClick);") filename
  = lit "(window.eventListenerManager ? window.eventListenerManager.add(btn, 'click', onClick) : btn.addEventListener('click', onClick));".
Proof. vm_compute. reflexivity. Qed.

(** C5: the timeout rewriter on [setTimeout(doWork, 500);] replaces the
    head of the call only; the argument text [(doWork, 500);] follows as it
    was written. *)
Theorem timeout_example (filename : string) :
  fix_timeouts (lit "setTimeout(doWork, 500);") filename
  = lit "(window.timerManager ? window.timerManager.setTimeout : setTimeout)"
    ++ lit "(doWork, 500);".
Proof. vm_compute. reflexivity. Qed.

(** ** Running the passes a second time *)

(** The output of the two timer passes is a fixed point of both. *)
Lemma timer_passes_settled (content : str) (filename : string) :
  let settled := fix_intervals (fix_timeouts content filename) filename in
  fix_timeouts settled filename = settled
  /\ fix_intervals settled filename = settled.
Proof.
  cbv zeta. split.
  - rewrite !fix_timeouts_per_line, !fix_intervals_per_line.
    rewrite !per_line_compose by auto with lines.
    apply per_line_ext. intros l.
    apply intervals_keeps_timeouts_fixed, timeouts_body_idempotent.
  - apply fix_intervals_idempotent.
Qed.

Example rewrapped_first_run (filename : string) :
  fix_event_listeners rewrapped filename = rewrapped
  /\ fix_timeouts rewrapped filename = rewrapped
  /\ apply_fixes rewrapped filename
     = lit "window.setTimeout.addEventListener(a, setTimeout(b, (window.timerManager ? window.timerManager.setInterval : setInterval)(c".
Proof. repeat split; vm_compute; reflexivity. Qed.

Example rewrapped_second_run (filename : string) :
  let once := apply_fixes rewrapped filename in
  fix_event_listeners once filename
  = lit "window.(window.eventListenerManager ? window.eventListenerManager.add(setTimeout, a, setTimeout(b, (window.timerManager ? window.timerManager.setInterval : setInterval) : setTimeout.addEventListener(a, setTimeout(b, (window.timerManager ? window.timerManager.setInterval : setInterval))(c"
  /\ fix_timeouts (fix_event_listeners once filename) filename
     = lit "window.(window.eventListenerManager ? window.eventListenerManager.add(setTimeout, a, (window.timerManager ? window.timerManager.setTimeout : setTimeout)(b, (window.timerManager ? window.timerManager.setInterval : setInterval) : setTimeout.addEventListener(a, (window.timerManager ? window.timerManager.setTimeout : setTimeout)(b, (window.timerManager ? window.timerManager.setInterval : setInterval))(c".
Proof. split; vm_compute; reflexivity. Qed.





(** ** Processing one file *)

Lemma process_file_excluded (filepath : path) (w : world) :
  excluded filepath = true ->
  process_file filepath w
  = (Returned false, w, [Print (Skipping (name filepath))]).
Proof.
  unfold excluded, process_file. intros ->. reflexivity.
Qed.

Lemma process_file_missing (filepath : path) (w : world) :
  excluded filepath = false -> files w !! filepath = None ->
  process_file filepath w
  = (Raised (FileNotFoundError filepath), w,
     [Print (Processing (name filepath)); OpenRead filepath]).
Proof.
  unfold excluded, process_file. intros -> Hf.
  unfold bind, print, read_text. rewrite Hf. reflexivity.
Qed.

Lemma process_file_changed (filepath : path) (w : world) (f : file) :
  excluded filepath = false -> files w !! filepath = Some f ->
  apply_fixes (content f) (name filepath) <> content f ->
  process_file filepath w
  = (Returned true,
     World (<[filepath :=
                File (apply_fixes (content f) (name filepath)) (clock w)]>
              (files w))
           (S (clock w)),
     [Print (Processing (name filepath)); OpenRead filepath;
      OpenWrite filepath; Print (Fixed (name filepath))]).
Proof.
  unfold excluded, process_file. intros -> Hf Hne.
  unfold bind at 1 2, print at 1, read_text. rewrite Hf.
  fold (apply_fixes (content f) (name filepath)).
  rewrite bool_decide_eq_true_2 by assumption. reflexivity.
Qed.

Lemma process_file_unchanged (filepath : path) (w : world) (f : file) :
  excluded filepath = false -> files w !! filepath = Some f ->
  apply_fixes (content f) (name filepath) = content f ->
  process_file filepath w
  = (Returned false, w,
     [Print (Processing (name filepath)); OpenRead filepath;
      Print (NoChanges (name filepath))]).
Proof.
  unfold excluded, process_file. intros -> Hf Heq.
  unfold bind at 1 2, print at 1, read_text. rewrite Hf.
  fold (apply_fixes (content f) (name filepath)).
  rewrite bool_decide_eq_false_2 by (intros H; now apply H). reflexivity.
Qed.

Lemma comment_lines_fixed (content : str) (filename : string) :
  Forall (fun l => is_comment l = true) (split newline content) ->
  apply_fixes content filename = content.
Proof.
  intros Hall. rewrite List.Forall_forall in Hall.
  assert (He : fix_event_listeners content filename = content).
  { rewrite fix_event_listeners_per_line. apply per_line_fixed.
    intros l Hl. unfold event_listeners.body. now rewrite (Hall l Hl). }
  assert (Ht : fix_timeouts content filename = content).
  { rewrite fix_timeouts_per_line. apply per_line_fixed.
    intros l Hl. unfold timeouts.body. now rewrite (Hall l Hl). }
  assert (Hi : fix_intervals content filename = content).
  { rewrite fix_intervals_per_line. apply per_line_fixed.
    intros l Hl. unfold intervals.body. now rewrite (Hall l Hl). }
  unfold apply_fixes. now rewrite He, Ht, Hi.
Qed.

(** C6: for a file that is not excluded, [process_file] writes exactly when
    the three rewriters change the content: then it opens the same path for
    writing, stores the whole new content and returns [True]; when the
    content comes out as it went in, as it does for a file of comment lines
    only, it opens the file for reading only and returns [False]. *)
Theorem process_file_writes_iff_changed
        (filepath : path) (w : world) (f : file) :
  name filepath ∉ EXCLUDE_FILES ->
  files w !! filepath = Some f ->
  let new_content := apply_fixes (content f) (name filepath) in
  (new_content <> content f ->
   process_file filepath w
   = (Returned true,
      World (<[filepath := File new_content (clock w)]> (files w))
            (S (clock w)),
      [Print (Processing (name filepath)); OpenRead filepath;
       OpenWrite filepath; Print (Fixed (name filepath))]))
  /\ (new_content = content f ->
      process_file filepath w
      = (Returned false, w,
         [Print (Processing (name filepath)); OpenRead filepath;
          Print (NoChanges (name filepath))]))
  /\ (Forall (fun l => is_comment l = true) (split newline (content f)) ->
      new_content = content f).
Proof.
  intros Hex Hf new_content.
  assert (He : excluded filepath = false)
    by now apply bool_decide_eq_false_2.
  split; [|split].
  - now apply process_file_changed.
  - now apply process_file_unchanged.
  - apply comment_lines_fixed.
Qed.

Lemma process_file_writes_iff_changed_witness :
  process_file ["public"; "notes.js"]%string commented_world
  = (Returned false, commented_world,
     [Print (Processing "notes.js"); OpenRead ["public"; "notes.js"]%string;
      Print (NoChanges "notes.js")]).
Proof.
  assert (Hex : name ["public"; "notes.js"]%string ∉ EXCLUDE_FILES)
    by (apply (bool_decide_eq_false_1 (_ ∈ EXCLUDE_FILES));
        vm_compute; reflexivity).
  assert (Hf : files commented_world !! (["public"; "notes.js"]%string)
               = Some (File comments_only 7))
    by (vm_compute; reflexivity).
  destruct (process_file_writes_iff_changed _ _ _ Hex Hf) as (_ & Hsame & Hc).
  apply Hsame. apply Hc. vm_compute. repeat constructor.
Defined.

(** ** Files on the exclusion list *)

Lemma leaves_ret {A : Type} (p : path) (a : A) : leaves p (ret a).
Proof. intros w. simpl. split; [reflexivity | constructor]. Qed.

Lemma leaves_print (p : path) (m : message) : leaves p (print m).
Proof.
  intros w. simpl. split; [reflexivity|].
  repeat constructor; discriminate.
Qed.

Lemma leaves_bind {A B : Type} (p : path) (m : io A) (f : A -> io B) :
  leaves p m -> (forall a, leaves p (f a)) -> leaves p (bind m f).
Proof.
  intros Hm Hf w. unfold bind. specialize (Hm w).
  destruct (m w) as [[[a|e] w'] evs]; simpl in *; [|exact Hm].
  specialize (Hf a w'). destruct (f a w') as [[o w''] evs']; simpl in *.
  destruct Hm as [Hm1 Hm2], Hf as [Hf1 Hf2]. split; [congruence|].
  apply List.Forall_app. now split.
Qed.

Lemma leaves_read_text (p q : path) : q <> p -> leaves p (read_text q).
Proof.
  intros Hne w. unfold read_text.
  destruct (files w !! q); simpl; (split; [reflexivity|]);
    repeat constructor; congruence.
Qed.

Lemma leaves_write_text (p q : path) (text : str) :
  q <> p -> leaves p (write_text q text).
Proof.
  intros Hne w. unfold write_text. simpl. split.
  - now apply lookup_insert_ne.
  - repeat constructor; congruence.
Qed.

Lemma process_file_leaves (p q : path) :
  excluded p = true -> leaves p (process_file q).
Proof.
  intros Hp. unfold process_file.
  destruct (bool_decide (name q ∈ EXCLUDE_FILES)) eqn:Hq.
  - apply leaves_bind; [apply leaves_print | intros; apply leaves_ret].
  - assert (Hne : q <> p) by (intros ->; unfold excluded in Hp; congruence).
    apply leaves_bind; [apply leaves_print | intros _].
    apply leaves_bind; [now apply leaves_read_text | intros text].
    destruct (bool_decide (_ <> _)).
    + apply leaves_bind; [now apply leaves_write_text | intros _].
      apply leaves_bind; [apply leaves_print | intros; apply leaves_ret].
    + apply leaves_bind; [apply leaves_print | intros; apply leaves_ret].
Qed.

Lemma main_loop_leaves (p : path) (js_files : list path) :
  excluded p = true ->
  forall fixed_count total_count,
    leaves p (main_loop js_files fixed_count total_count).
Proof.
  intros Hp. induction js_files as [|q rest IH]; intros fc tc; simpl.
  - apply leaves_ret.
  - apply leaves_bind; [now apply process_file_leaves | intros b; apply IH].
Qed.

Lemma main_leaves (p : path) (top deep : list path) :
  excluded p = true -> leaves p (main top deep).
Proof.
  intros Hp. unfold main.
  repeat (apply leaves_bind; [apply leaves_print | intros _]).
  apply leaves_bind; [now apply main_loop_leaves | intros counts].
  repeat (apply leaves_bind; [apply leaves_print | intros _]).
  apply leaves_print.
Qed.

(** C3: for a path whose name is on the exclusion list, [process_file]
    returns [False], prints that it skips the file and opens nothing; and
    after a whole run of [main] the file is as it was, content and
    modification time, and no event of the run opened it. *)
Theorem excluded_file_untouched (filepath : path) :
  name filepath ∈ EXCLUDE_FILES ->
  (forall w,
      process_file filepath w
      = (Returned false, w, [Print (Skipping (name filepath))]))
  /\ (forall top deep w,
         files (main top deep w).1.2 !! filepath = files w !! filepath
         /\ Forall (no_open filepath) (main top deep w).2).
Proof.
  intros Hin.
  assert (He : excluded filepath = true) by now apply bool_decide_eq_true_2.
  split.
  - intros w. now apply process_file_excluded.
  - intros top deep w. now apply main_leaves.
Qed.

Lemma excluded_file_untouched_witness :
  let p := ["public"; "TimerManager.js"]%string in
  (forall w,
      process_file p w = (Returned false, w, [Print (Skipping (name p))]))
  /\ (forall top deep w,
         files (main top deep w).1.2 !! p = files w !! p
         /\ Forall (no_open p) (main top deep w).2).
Proof.
  apply (excluded_file_untouched ["public"; "TimerManager.js"]%string).
  apply (bool_decide_eq_true_1 (_ ∈ EXCLUDE_FILES)). vm_compute. reflexivity.
Defined.

(** ** The summary of the driver *)

Lemma count_prints_app (P : message -> bool) (evs evs' : list event) :
  count_prints P (evs ++ evs') = count_prints P evs + count_prints P evs'.
Proof.
  induction evs as [|[m|p|p] evs IH]; simpl; lia.
Qed.

(** What [process_file] returns and prints for such a path. *)
Lemma process_file_report (p : path) (w : world) :
  listed_ok w p ->
  exists modified w' evs,
    process_file p w = (Returned modified, w', evs)
    /\ (forall q, listed_ok w q -> listed_ok w' q)
    /\ (excluded p = true -> modified = false)
    /\ count_prints is_fixed evs = (if modified then 1 else 0)
    /\ count_prints is_skipping evs = (if excluded p then 1 else 0)
    /\ count_prints is_no_changes evs
       = (if modified then 0 else if excluded p then 0 else 1).
Proof.
  intros Hok. destruct (excluded p) eqn:He.
  - eexists false, w, _. split; [now apply process_file_excluded|].
    repeat split; auto.
  - destruct Hok as [Hok|[f Hf]]; [congruence|].
    destruct (decide (apply_fixes (content f) (name p) = content f))
      as [Heq|Hne].
    + eexists false, w, _.
      split; [now apply (process_file_unchanged p w f)|].
      repeat split; auto.
    + eexists true, _, _.
      split; [now apply (process_file_changed p w f)|].
      repeat split; auto; try discriminate.
      intros q [Hq|Hq]; [now left | right]. simpl.
      destruct (decide (p = q)) as [->|Hpq].
      * rewrite lookup_insert_eq. eauto.
      * now rewrite lookup_insert_ne.
Qed.

Lemma main_loop_counts (js_files : list path) :
  forall fixed_count total_count w,
    Forall (listed_ok w) js_files ->
    exists w' evs,
      main_loop js_files fixed_count total_count w
      = (Returned
           ((fixed_count + Z.of_nat (count_prints is_fixed evs))%Z,
            (total_count + Z.of_nat (length js_files))%Z),
         w', evs)
      /\ length js_files
         = count_prints is_fixed evs + count_prints is_skipping evs
           + count_prints is_no_changes evs
      /\ count_prints is_skipping evs
         = length (List.filter excluded js_files).
Proof.
  induction js_files as [|p rest IH]; intros fc tc w Hall.
  - exists w, []. simpl. unfold ret. rewrite !Z.add_0_r. auto.
  - inversion Hall as [|? ? Hp Hrest]; subst.
    destruct (process_file_report p w Hp)
      as (modified & w1 & evs1 & Hpf & Hkeep & Hmod & Hfix & Hskip & Hnc).
    assert (Hrest1 : Forall (listed_ok w1) rest)
      by (eapply Forall_impl; [exact Hrest | exact Hkeep]).
    destruct (IH (if modified then (fc + 1)%Z else fc) (tc + 1)%Z w1 Hrest1)
      as (w2 & evs2 & Hloop & Hlen & Hex).
    exists w2, (evs1 ++ evs2).
    cbn [main_loop]. unfold bind. rewrite Hpf, Hloop.
    rewrite !count_prints_app, Hfix, Hskip, Hnc.
    split; [|split].
    + do 4 f_equal.
      * destruct modified; lia.
      * simpl length. lia.
    + simpl length. destruct (excluded p); [rewrite Hmod by reflexivity|];
        [|destruct modified]; lia.
    + simpl. rewrite Hex. destruct (excluded p); simpl; lia.
Qed.

Example managed_run :
  (main managed_listing managed_listing managed_world).2
  = [Print Starting; Print ProcessingIn; Print Blank;
     Print (Processing "game.js");
     OpenRead ["public"; "game.js"]%string;
     OpenWrite ["public"; "game.js"]%string;
     Print (Fixed "game.js");
     Print (Skipping "TimerManager.js");
     Print (Processing "game.js");
     OpenRead ["public"; "game.js"]%string;
     Print (NoChanges "game.js");
     Print (Skipping "TimerManager.js");
     Print Blank; Print Summary; Print (TotalFiles 4);
     Print (FilesModified 1); Print (FilesSkipped 3);
     Print Blank; Print Done].
Proof. vm_compute. reflexivity. Qed.

(** With [game.js] and [TimerManager.js] in the public directory, each
    listed by both patterns, the summary reads total 4, modified 1,
    skipped 3; two of the four are the excluded file, and of the three
    skipped only one was processed. *)
Lemma summary_counts_excluded_files :
  ~ summary_leaves_out_excluded managed_listing managed_listing managed_world.
Proof.
  intros [H _]. vm_compute in H.
  repeat (destruct H as [H|H]; [discriminate H|]). exact H.
Qed.

(** C7 (amended): when every listed path is excluded or can be read,
    [main] ends with the summary total, modified, total - modified, where
    the total is the number of listed paths, the excluded ones and the ones
    listed twice included; the skipped count total - modified is the number
    of excluded entries plus the number of files processed without a
    change. *)
Theorem summary_counts (top deep : list path) (w : world) :
  Forall (listed_ok w) (top ++ deep) -> run_summary top deep w.
Proof.
  intros Hall.
  destruct (main_loop_counts (top ++ deep) 0%Z 0%Z w Hall)
    as (w' & evs & Hloop & Hlen & Hex).
  exists w', evs. cbv zeta.
  split; [|split; [|exact Hex]].
  - unfold main, bind, print. rewrite Hloop. reflexivity.
  - lia.
Qed.

Lemma summary_counts_witness :
  run_summary managed_listing managed_listing managed_world.
Proof.
  apply (summary_counts managed_listing managed_listing managed_world).
  repeat (constructor;
          [first [ left; vm_compute; reflexivity
                 | right; vm_compute; eexists; reflexivity ]|]).
  constructor.
Defined.


(** * Further properties *)

(** ** Content without the text a pattern needs *)

Lemma join_has_line (sep : str) (l : str) (ls : list str) :
  In l ls -> exists pre post, join sep ls = pre ++ l ++ post.
Proof.
  induction ls as [|l0 ls IH]; intros Hin; [destruct Hin|].
  destruct ls as [|l1 ls].
  - destruct Hin as [->|[]]. exists [], []. simpl. now rewrite app_nil_r.
  - change (join sep (l0 :: l1 :: ls))
      with (l0 ++ sep ++ join sep (l1 :: ls)).
    destruct Hin as [->|Hin].
    + exists [], (sep ++ join sep (l1 :: ls)). reflexivity.
    + destruct (IH Hin) as (pre & post & ->).
      exists (l0 ++ sep ++ pre), post. now rewrite <- !app_assoc.
Qed.

Lemma contains_line (p content l : str) :
  In l (split newline content) ->
  contains p l = true -> contains p content = true.
Proof.
  intros Hin Hc. rewrite <- (join_split newline content).
  destruct (join_has_line [newline] l _ Hin) as (pre & post & ->).
  apply contains_app_r, contains_app_l, Hc.
Qed.

Lemma lines_without (p content l : str) :
  contains p content = false ->
  In l (split newline content) -> contains p l = false.
Proof.
  intros Hc Hin. destruct (contains p l) eqn:E; [|reflexivity].
  now rewrite (contains_line p content l Hin E) in Hc.
Qed.

Lemma contains_false_free (w : str) (s : str) :
  contains w s = false -> forall prev, free w prev s = true.
Proof.
  induction s as [|c s IH]; intros Hc prev; [reflexivity|].
  cbn [contains] in Hc. apply orb_false_elim in Hc as [Hs Hc].
  cbn [free]. unfold matches. rewrite Hs, andb_false_r. simpl. now apply IH.
Qed.

Lemma timeouts_body_without (l : str) :
  contains (lit "setTimeout(") l = false -> timeouts.body l = l.
Proof.
  intros Hc. unfold timeouts.body.
  destruct (is_comment l); [reflexivity|].
  destruct (_ || _); [reflexivity|].
  apply (tsub_free "s" (lit "etTimeout(") (timeouts.replacer no_groups)).
  now apply contains_false_free.
Qed.

Lemma intervals_body_without (l : str) :
  contains (lit "setInterval(") l = false -> intervals.body l = l.
Proof.
  intros Hc. unfold intervals.body.
  destruct (is_comment l); [reflexivity|].
  destruct (_ || _); [reflexivity|].
  apply (tsub_free "s" (lit "etInterval(") (intervals.replacer no_groups)).
  now apply contains_false_free.
Qed.

Section MatcherSuffix.
Context {A : Type}.

Lemma star_suffix (p : ascii -> bool) (k : option ascii -> str -> option A) :
  forall s prev x,
    star p prev s k = Some x ->
    exists prev' s' m, k prev' s' = Some x /\ s = m ++ s'.
Proof.
  induction s as [|c s IH]; intros prev x; simpl.
  - intros H. now exists prev, [], [].
  - destruct (p c).
    + destruct (star p (Some c) s k) eqn:E.
      * intros [= ->]. destruct (IH _ _ E) as (prev' & s' & m & Hk & ->).
        now exists prev', s', (c :: m).
      * intros H. now exists prev, (c :: s), [].
    + intros H. now exists prev, (c :: s), [].
Qed.

Lemma run_suffix (r : regex) :
  forall prev s g (k : option ascii -> str -> groups -> option A) x,
    run r prev s g k = Some x ->
    exists prev' s' g' m, k prev' s' g' = Some x /\ s = m ++ s'.
Proof.
  induction r as [l|p|p| |n r IH|r IH|r1 IH1 r2 IH2];
    intros prev s g k x; simpl.
  - rewrite eat_spec. destruct (startswith l s) eqn:E; [|discriminate].
    intros H. destruct (startswith_split _ _ E) as [t ->].
    rewrite drop_app_length in H. now exists (lastc prev l), t, g, l.
  - unfold plus. destruct s as [|c s]; [discriminate|].
    destruct (p c); [|discriminate]. intros H.
    apply star_suffix in H as (prev' & s' & m & Hk & ->).
    now exists prev', s', g, (c :: m).
  - intros H. apply star_suffix in H as (prev' & s' & m & Hk & ->).
    now exists prev', s', g, m.
  - destruct (xorb _ _); [|discriminate]. intros H.
    now exists prev, s, g, [].
  - intros H. apply IH in H as (prev' & s' & g' & m & Hk & ->).
    eexists prev', s', _, m. split; [exact Hk | reflexivity].
  - destruct (run r prev s g k) eqn:E.
    + intros [= ->]. now apply IH in E.
    + intros H. now exists prev, s, g, [].
  - intros H. apply IH1 in H as (p1 & s1 & g1 & m1 & H & ->).
    apply IH2 in H as (p2 & s2 & g2 & m2 & H & ->).
    exists p2, s2, g2, (m1 ++ m2). now rewrite <- app_assoc.
Qed.
End MatcherSuffix.

Lemma run_cat {A : Type} (r1 r2 : regex) prev s g
      (k : option ascii -> str -> groups -> option A) :
  run (Cat r1 r2) prev s g k
  = run r1 prev s g (fun prev' s' g' => run r2 prev' s' g' k).
Proof. reflexivity. Qed.

Lemma run_lit {A : Type} (l : str) prev s g
      (k : option ascii -> str -> groups -> option A) :
  run (Lit l) prev s g k
  = match eat l prev s with
    | Some (prev', s') => k prev' s' g
    | None => None
    end.
Proof. reflexivity. Qed.

(** A match of the listener pattern has the text [.addEventListener(]. *)
Lemma listener_match_has_literal prev s g rest :
  match_here event_listeners.pattern prev s = Some (g, rest) ->
  contains (lit ".addEventListener(") s = true.
Proof.
  unfold match_here, event_listeners.pattern. rewrite run_cat. intros H.
  apply run_suffix in H as (prev' & s' & g' & m & H & ->).
  rewrite run_cat, run_lit, eat_spec in H.
  destruct (startswith (lit ".addEventListener(") s') eqn:E; [|discriminate].
  apply contains_app_r, startswith_contains, E.
Qed.

Lemma sub_from_no_match (r : regex) (repl : groups -> str) (s : str) :
  (forall prev m s', s = m ++ s' -> match_here r prev s' = None) ->
  forall prev, sub_from r repl prev 0 s = s.
Proof.
  induction s as [|c s IH]; intros Hno prev; [reflexivity|].
  cbn [sub_from]. rewrite (Hno prev [] (c :: s) eq_refl).
  f_equal. apply IH. intros p m s' ->. now apply (Hno p (c :: m)).
Qed.

Lemma event_body_without (l : str) :
  contains (lit ".addEventListener(") l = false ->
  event_listeners.body l = l.
Proof.
  intros Hc. unfold event_listeners.body.
  destruct (is_comment l); [reflexivity|].
  apply sub_from_no_match. intros prev m s' ->.
  destruct (match_here _ _ _) as [[g rest]|] eqn:E; [|reflexivity].
  apply listener_match_has_literal in E.
  now rewrite (contains_app_r _ m _ E) in Hc.
Qed.

(** X1: content that nowhere has the text [.addEventListener(] comes out
    of the listener rewriter as it went in. *)
Theorem no_listener_call_no_change (content : str) (filename : string) :
  contains (lit ".addEventListener(") content = false ->
  fix_event_listeners content filename = content.
Proof.
  intros Hc. rewrite fix_event_listeners_per_line. apply per_line_fixed.
  intros l Hl. apply event_body_without. now apply (lines_without _ content).
Qed.

Lemma no_listener_call_no_change_witness :
  fix_event_listeners (lit "el.onclick = f; setTimeout(f, 10);") "ui.js"
  = lit "el.onclick = f; setTimeout(f, 10);".
Proof.
  apply (no_listener_call_no_change
           (lit "el.onclick = f; setTimeout(f, 10);") "ui.js").
  vm_compute. reflexivity.
Defined.

(** X2: content without the text [setTimeout(] is left as it is by the
    timeout rewriter, and content without [setInterval(] by the interval
    rewriter. *)
Theorem no_timer_call_no_change (content : str) (filename : string) :
  (contains (lit "setTimeout(") content = false ->
   fix_timeouts content filename = content)
  /\ (contains (lit "setInterval(") content = false ->
      fix_intervals content filename = content).
Proof.
  split; intros Hc.
  - rewrite fix_timeouts_per_line. apply per_line_fixed.
    intros l Hl. apply timeouts_body_without.
    now apply (lines_without _ content).
  - rewrite fix_intervals_per_line. apply per_line_fixed.
    intros l Hl. apply intervals_body_without.
    now apply (lines_without _ content).
Qed.

Lemma no_timer_call_no_change_witness :
  fix_timeouts (lit "el.addEventListener('x', f); setInterval(g, 5);") "ui.js"
  = lit "el.addEventListener('x', f); setInterval(g, 5);"
  /\ fix_intervals (lit "clearInterval(id); setTimeout (g, 5);") "ui.js"
     = lit "clearInterval(id); setTimeout (g, 5);".
Proof.
  split.
  - apply (proj1 (no_timer_call_no_change _ "ui.js")). vm_compute. reflexivity.
  - apply (proj2 (no_timer_call_no_change _ "ui.js")). vm_compute. reflexivity.
Defined.

(** ** Content put together from parts *)

Lemma split_app_sep (sep : ascii) (a b : str) :
  split sep (a ++ sep :: b) = split sep a ++ split sep b.
Proof.
  induction a as [|c a IH]; simpl.
  - now rewrite Ascii.eqb_refl.
  - rewrite IH. destruct (Ascii.eqb c sep); [reflexivity|].
    pose proof (split_not_nil sep a) as Hnn.
    destruct (split sep a); [congruence | reflexivity].
Qed.

Lemma join_app (sep : str) (ls1 ls2 : list str) :
  ls1 <> [] -> ls2 <> [] ->
  join sep (ls1 ++ ls2) = join sep ls1 ++ sep ++ join sep ls2.
Proof.
  intros H1 H2. induction ls1 as [|l ls1 IH]; [congruence|].
  destruct ls1 as [|l' ls1].
  - destruct ls2; [congruence | reflexivity].
  - change (join sep ((l :: l' :: ls1) ++ ls2))
      with (l ++ sep ++ join sep ((l' :: ls1) ++ ls2)).
    rewrite IH by discriminate.
    change (join sep (l :: l' :: ls1))
      with (l ++ sep ++ join sep (l' :: ls1)).
    now rewrite <- !app_assoc.
Qed.

Lemma per_line_app (body : str -> str) (a b : str) :
  per_line body (a ++ newline :: b)
  = per_line body a ++ newline :: per_line body b.
Proof.
  unfold per_line. rewrite split_app_sep, map_app, join_app.
  - reflexivity.
  - pose proof (split_not_nil newline a).
    destruct (split newline a); [congruence | discriminate].
  - pose proof (split_not_nil newline b).
    destruct (split newline b); [congruence | discriminate].
Qed.

(** X3: rewriting is local to the lines: for content made of two parts
    with a line break between them, each rewriter, and the three in a row,
    gives the result for the first part, the line break, and the result for
    the second part. *)
Theorem rewriters_part_by_part (a b : str) (filename : string) :
  fix_event_listeners (a ++ newline :: b) filename
  = fix_event_listeners a filename ++ newline :: fix_event_listeners b filename
  /\ fix_timeouts (a ++ newline :: b) filename
     = fix_timeouts a filename ++ newline :: fix_timeouts b filename
  /\ fix_intervals (a ++ newline :: b) filename
     = fix_intervals a filename ++ newline :: fix_intervals b filename
  /\ apply_fixes (a ++ newline :: b) filename
     = apply_fixes a filename ++ newline :: apply_fixes b filename.
Proof.
  assert (He : forall x y,
             fix_event_listeners (x ++ newline :: y) filename
             = fix_event_listeners x filename
               ++ newline :: fix_event_listeners y filename)
    by (intros; rewrite !fix_event_listeners_per_line; apply per_line_app).
  assert (Ht : forall x y,
             fix_timeouts (x ++ newline :: y) filename
             = fix_timeouts x filename ++ newline :: fix_timeouts y filename)
    by (intros; rewrite !fix_timeouts_per_line; apply per_line_app).
  assert (Hi : forall x y,
             fix_intervals (x ++ newline :: y) filename
             = fix_intervals x filename
               ++ newline :: fix_intervals y filename)
    by (intros; rewrite !fix_intervals_per_line; apply per_line_app).
  repeat split; auto.
  unfold apply_fixes. now rewrite He, Ht, Hi.
Qed.

(** ** Which lines are comments *)

Lemma lstrip_spaces (ws l : str) :
  forallb is_space ws = true -> lstrip (ws ++ l) = lstrip l.
Proof.
  induction ws as [|c ws IH]; simpl; intros H; [reflexivity|].
  apply andb_prop in H as [-> H]. auto.
Qed.

(** X4: the white space a line begins with has no part in whether the
    line is a comment, so an indented comment line is passed through by
    every rewriter like the line without the indentation. *)
Theorem indentation_ignored (ws line : str) :
  forallb is_space ws = true ->
  is_comment (ws ++ line) = is_comment line
  /\ (is_comment line = true ->
      event_listeners.body (ws ++ line) = ws ++ line
      /\ timeouts.body (ws ++ line) = ws ++ line
      /\ intervals.body (ws ++ line) = ws ++ line).
Proof.
  intros Hws.
  assert (H : is_comment (ws ++ line) = is_comment line)
    by (unfold is_comment, strip; now rewrite lstrip_spaces).
  split; [exact H|]. intros Hc.
  unfold event_listeners.body, timeouts.body, intervals.body.
  rewrite H, Hc. auto.
Qed.

Lemma indentation_ignored_witness :
  let ws := [" "%char; ascii_of_nat 9; ascii_of_nat 160] in
  is_comment (ws ++ lit "* setTimeout(f, 1)") = true
  /\ timeouts.body (ws ++ lit "* setTimeout(f, 1)")
     = ws ++ lit "* setTimeout(f, 1)".
Proof.
  cbv zeta.
  destruct (indentation_ignored
              [" "%char; ascii_of_nat 9; ascii_of_nat 160]
              (lit "* setTimeout(f, 1)") eq_refl) as [H1 H2].
  split.
  - rewrite H1. vm_compute. reflexivity.
  - apply H2. vm_compute. reflexivity.
Defined.

(** X5: a line whose stripped text starts with [/*], the opening of a
    block comment, is not taken for a comment: the rewriters treat it as
    code, and the listener substitution is applied to it. *)
Theorem block_comment_opening_is_code (line : str) :
  startswith (lit "/*") (strip line) = true ->
  is_comment line = false
  /\ event_listeners.body line
     = re_sub event_listeners.pattern event_listeners.replacer line.
Proof.
  intros H.
  assert (Hc : is_comment line = false).
  { unfold is_comment. change (lit "/*") with ["/"%char; "*"%char] in H.
    destruct (strip line) as [|c1 [|c2 t]];
      cbn [startswith] in H; try discriminate H.
    { now rewrite andb_false_r in H. }
    apply andb_prop in H as [H1 H2].
    apply andb_prop in H2 as [H2 _].
    apply Ascii.eqb_eq in H1 as <-. apply Ascii.eqb_eq in H2 as <-.
    reflexivity. }
  split; [exact Hc|]. unfold event_listeners.body. now rewrite Hc.
Qed.

Lemma block_comment_opening_is_code_witness :
  is_comment (lit "/* old: a.addEventListener(x, y) */") = false
  /\ event_listeners.body (lit "/* old: a.addEventListener(x, y) */")
     = lit "/* old: (window.eventListenerManager ? window.eventListenerManager.add(a, x, y) : a.addEventListener(x, y)) */".
Proof.
  destruct (block_comment_opening_is_code
              (lit "/* old: a.addEventListener(x, y) */") eq_refl)
    as [H1 H2].
  split; [exact H1|]. rewrite H2. vm_compute. reflexivity.
Defined.

(** ** What a run does to the files *)

(** The four ways [process_file] can go. *)
Lemma process_file_cases (p : path) (w : world) :
  (excluded p = true
   /\ process_file p w = (Returned false, w, [Print (Skipping (name p))]))
  \/ (excluded p = false /\ files w !! p = None
      /\ process_file p w
         = (Raised (FileNotFoundError p), w,
            [Print (Processing (name p)); OpenRead p]))
  \/ (exists f,
         excluded p = false /\ files w !! p = Some f
         /\ apply_fixes (content f) (name p) <> content f
         /\ process_file p w
            = (Returned true,
               World (<[p := File (apply_fixes (content f) (name p))
                                  (clock w)]> (files w))
                     (S (clock w)),
               [Print (Processing (name p)); OpenRead p; OpenWrite p;
                Print (Fixed (name p))]))
  \/ (exists f,
         excluded p = false /\ files w !! p = Some f
         /\ apply_fixes (content f) (name p) = content f
         /\ process_file p w
            = (Returned false, w,
               [Print (Processing (name p)); OpenRead p;
                Print (NoChanges (name p))])).
Proof.
  destruct (excluded p) eqn:He.
  - left. split; [reflexivity | now apply process_file_excluded].
  - destruct (files w !! p) as [f|] eqn:Hf.
    + destruct (decide (apply_fixes (content f) (name p) = content f))
        as [Heq|Hne].
      * right; right; right. exists f.
        repeat split; auto. now apply (process_file_unchanged p w f).
      * right; right; left. exists f.
        repeat split; auto. now apply (process_file_changed p w f).
    + right; left. repeat split; auto. now apply process_file_missing.
Qed.

Lemma process_file_keeps_files (p : path) : keeps_files (process_file p).
Proof.
  intros w.
  destruct (process_file_cases p w)
    as [[_ ->]|[(_ & _ & ->)|[(f & _ & Hf & _ & ->)|(f & _ & _ & _ & ->)]]];
    try reflexivity.
  simpl. apply dom_insert_lookup_L. eauto.
Qed.

Lemma keeps_files_ret {A : Type} (a : A) : keeps_files (ret a).
Proof. intros w. reflexivity. Qed.

Lemma keeps_files_print (m : message) : keeps_files (print m).
Proof. intros w. reflexivity. Qed.

Lemma keeps_files_bind {A B : Type} (m : io A) (f : A -> io B) :
  keeps_files m -> (forall a, keeps_files (f a)) -> keeps_files (bind m f).
Proof.
  intros Hm Hf w. unfold bind. specialize (Hm w).
  destruct (m w) as [[[a|e] w'] evs]; simpl in *; [|exact Hm].
  specialize (Hf a w'). destruct (f a w') as [[o w''] evs']; simpl in *.
  congruence.
Qed.

Lemma main_loop_keeps_files (js_files : list path) :
  forall fixed_count total_count,
    keeps_files (main_loop js_files fixed_count total_count).
Proof.
  induction js_files as [|q rest IH]; intros fc tc; simpl.
  - apply keeps_files_ret.
  - apply keeps_files_bind; [apply process_file_keeps_files | intros; apply IH].
Qed.

(** X6: a run makes no file and removes none: the paths that name a file
    after [main] (and after [process_file]) are those that did before,
    however the run ends. *)
Theorem run_keeps_the_set_of_files (top deep : list path) (w : world) :
  dom (files (main top deep w).1.2) = dom (files w)
  /\ forall p, dom (files (process_file p w).1.2) = dom (files w).
Proof.
  split; [|intros p; apply process_file_keeps_files].
  revert w. change (keeps_files (main top deep)). unfold main.
  repeat (apply keeps_files_bind; [apply keeps_files_print | intros _]).
  apply keeps_files_bind; [apply main_loop_keeps_files | intros counts].
  repeat (apply keeps_files_bind; [apply keeps_files_print | intros _]).
  apply keeps_files_print.
Qed.

Lemma process_file_leaves_other (p q : path) :
  q <> p -> leaves p (process_file q).
Proof.
  intros Hne. unfold process_file.
  destruct (bool_decide (name q ∈ EXCLUDE_FILES)).
  - apply leaves_bind; [apply leaves_print | intros; apply leaves_ret].
  - apply leaves_bind; [apply leaves_print | intros _].
    apply leaves_bind; [now apply leaves_read_text | intros text].
    destruct (bool_decide (_ <> _)).
    + apply leaves_bind; [now apply leaves_write_text | intros _].
      apply leaves_bind; [apply leaves_print | intros; apply leaves_ret].
    + apply leaves_bind; [apply leaves_print | intros; apply leaves_ret].
Qed.

Lemma main_loop_leaves_other (p : path) (js_files : list path) :
  ~ In p js_files ->
  forall fixed_count total_count,
    leaves p (main_loop js_files fixed_count total_count).
Proof.
  induction js_files as [|q rest IH]; intros Hnot fc tc; simpl.
  - apply leaves_ret.
  - apply leaves_bind.
    + apply process_file_leaves_other. intros ->. apply Hnot. now left.
    + intros b. apply IH. intros Hin. apply Hnot. now right.
Qed.

(** X7: a file whose path is in neither listing is not opened by the run
    and is after it what it was before, content and modification time. *)
Theorem unlisted_file_untouched (p : path) (top deep : list path) (w : world) :
  ~ In p (top ++ deep) ->
  files (main top deep w).1.2 !! p = files w !! p
  /\ Forall (no_open p) (main top deep w).2.
Proof.
  intros Hnot. revert w. change (leaves p (main top deep)). unfold main.
  repeat (apply leaves_bind; [apply leaves_print | intros _]).
  apply leaves_bind; [now apply main_loop_leaves_other | intros counts].
  repeat (apply leaves_bind; [apply leaves_print | intros _]).
  apply leaves_print.
Qed.

Lemma unlisted_file_untouched_witness :
  files (main [ ["public"; "game.js"]%string ] [] managed_world).1.2
    !! (["public"; "TimerManager.js"]%string)
  = files managed_world !! (["public"; "TimerManager.js"]%string)
  /\ Forall (no_open ["public"; "TimerManager.js"]%string)
            (main [ ["public"; "game.js"]%string ] [] managed_world).2.
Proof.
  apply (unlisted_file_untouched ["public"; "TimerManager.js"]%string
           [ ["public"; "game.js"]%string ] [] managed_world).
  simpl. intros [H|[]]. discriminate H.
Defined.

(** ** A listed path without a file *)

Lemma process_file_returns (p : path) (w : world) :
  listed_ok w p ->
  exists modified w1 evs1,
    process_file p w = (Returned modified, w1, evs1)
    /\ (forall q, listed_ok w q -> listed_ok w1 q)
    /\ count_prints is_summary evs1 = 0.
Proof.
  intros Hok.
  destruct (process_file_cases p w)
    as [[_ H]|[(He & Hf & _)|[(f & _ & Hf & _ & H)|(f & _ & _ & _ & H)]]].
  - eexists _, _, _. split; [exact H|]. auto.
  - destruct Hok as [Hok|[f Hf']]; congruence.
  - eexists _, _, _. split; [exact H|]. split; [|reflexivity].
    intros q [Hq|Hq]; [now left | right]. simpl.
    destruct (decide (p = q)) as [->|Hpq].
    + rewrite lookup_insert_eq. eauto.
    + now rewrite lookup_insert_ne.
  - eexists _, _, _. split; [exact H|]. auto.
Qed.

(** The loop over the first paths of the list, all of which can be dealt
    with, and then over the others. *)
Lemma main_loop_prefix (pre : list path) :
  forall fixed_count total_count w,
    Forall (listed_ok w) pre ->
    exists counts w' evs,
      main_loop pre fixed_count total_count w = (Returned counts, w', evs)
      /\ count_prints is_summary evs = 0
      /\ forall rest,
          main_loop (pre ++ rest) fixed_count total_count w
          = match main_loop rest counts.1 counts.2 w' with
            | (o, w'', evs') => (o, w'', evs ++ evs')
            end.
Proof.
  induction pre as [|p pre IH]; intros fc tc w Hall.
  - exists (fc, tc), w, []. repeat split.
    intros rest. simpl. now destruct (main_loop rest fc tc w) as [[o w''] evs'].
  - inversion Hall as [|? ? Hp Hpre]; subst.
    destruct (process_file_returns p w Hp)
      as (modified & w1 & evs1 & Hpf & Hkeep & Hsum1).
    assert (Hpre1 : Forall (listed_ok w1) pre)
      by (eapply Forall_impl; [exact Hpre | exact Hkeep]).
    destruct (IH (if modified then (fc + 1)%Z else fc) (tc + 1)%Z w1 Hpre1)
      as (counts & w' & evs & Hloop & Hsum & Hrest).
    exists counts, w', (evs1 ++ evs). split; [|split].
    + cbn [main_loop]. unfold bind. now rewrite Hpf, Hloop.
    + rewrite count_prints_app. lia.
    + intros rest. change ((p :: pre) ++ rest) with (p :: (pre ++ rest)).
      cbn [main_loop]. unfold bind. rewrite Hpf, Hrest.
      destruct (main_loop rest counts.1 counts.2 w') as [[o w''] evs'].
      now rewrite app_assoc.
Qed.

(** X8: a listed path that is not excluded and at which there is no file
    ends the run: [main] raises the [FileNotFoundError] of the open, having
    processed the paths before it (what was written stays written) and
    printed nothing after the attempt to open the file; no summary is
    printed and the paths after it are not looked at. *)
Theorem main_stops_at_missing_file
        (top deep pre rest : list path) (p : path) (w : world) :
  top ++ deep = pre ++ p :: rest ->
  Forall (listed_ok w) pre ->
  excluded p = false ->
  files w !! p = None ->
  exists counts w' evs,
    main_loop pre 0%Z 0%Z w = (Returned counts, w', evs)
    /\ main top deep w
       = (Raised (FileNotFoundError p), w',
          [Print Starting; Print ProcessingIn; Print Blank] ++ evs
          ++ [Print (Processing (name p)); OpenRead p])
    /\ count_prints is_summary (main top deep w).2 = 0.
Proof.
  intros Hjs Hpre Hex Hmiss.
  destruct (main_loop_prefix pre 0%Z 0%Z w Hpre)
    as (counts & w' & evs & Hloop & Hsum & Hrest).
  assert (Hmiss' : files w' !! p = None).
  { apply not_elem_of_dom. apply not_elem_of_dom in Hmiss.
    pose proof (main_loop_keeps_files pre 0%Z 0%Z w) as Hdom.
    rewrite Hloop in Hdom. simpl in Hdom. now rewrite Hdom. }
  assert (Hmain : main top deep w
                  = (Raised (FileNotFoundError p), w',
                     [Print Starting; Print ProcessingIn; Print Blank] ++ evs
                     ++ [Print (Processing (name p)); OpenRead p])).
  { unfold main. rewrite Hjs. unfold bind at 1 2 3 4, print at 1 2 3.
    rewrite Hrest. cbn [main_loop]. unfold bind at 1.
    rewrite (process_file_missing p w' Hex Hmiss'). reflexivity. }
  exists counts, w', evs. split; [exact Hloop|]. split; [exact Hmain|].
  rewrite Hmain. cbn [snd]. rewrite !count_prints_app, Hsum. reflexivity.
Qed.

Lemma main_stops_at_missing_file_witness :
  main [ ["public"; "game.js"]; ["public"; "gone.js"];
         ["public"; "TimerManager.js"] ]%string [] managed_world
  = (Raised (FileNotFoundError ["public"; "gone.js"]%string),
     World (<[ ["public"; "game.js"]%string :=
                 File (apply_fixes (lit "setTimeout(tick, 16);") "game.js") 4 ]>
              (files managed_world)) 5,
     [Print Starting; Print ProcessingIn; Print Blank;
      Print (Processing "game.js"); OpenRead ["public"; "game.js"]%string;
      OpenWrite ["public"; "game.js"]%string; Print (Fixed "game.js");
      Print (Processing "gone.js"); OpenRead ["public"; "gone.js"]%string]).
Proof.
  destruct (main_stops_at_missing_file
              [ ["public"; "game.js"]; ["public"; "gone.js"];
                ["public"; "TimerManager.js"] ]%string []
              [ ["public"; "game.js"]%string ]
              [ ["public"; "TimerManager.js"]%string ]
              ["public"; "gone.js"]%string managed_world)
    as (counts & w' & evs & Hloop & Hmain & _).
  - reflexivity.
  - constructor; [|constructor]. right. vm_compute. eexists; reflexivity.
  - vm_compute. reflexivity.
  - vm_compute. reflexivity.
  - rewrite Hmain. vm_compute in Hloop.
    injection Hloop as _ <- <-. reflexivity.
Defined.

(** ** A file processed twice *)

Lemma apply_fixes_settled (content : str) (filename : string) :
  fix_event_listeners (apply_fixes content filename) filename
  = apply_fixes content filename ->
  apply_fixes (apply_fixes content filename) filename
  = apply_fixes content filename.
Proof.
  intros Hl. unfold apply_fixes at 1. rewrite Hl. unfold apply_fixes.
  destruct (timer_passes_settled
              (fix_event_listeners content filename) filename) as [Ht Hi].
  cbv zeta in *. now rewrite Ht, Hi.
Qed.

(** X9: a file that [process_file] has rewritten is read back with the new
    content, and when the listener rewriter has nothing more to do on that
    content, processing the file again (as the driver does for a file that
    both listings name) changes nothing: the second call reads the file,
    writes nothing and returns [False]. *)
Theorem second_processing_is_idle (p : path) (w : world) (f : file) :
  excluded p = false ->
  files w !! p = Some f ->
  apply_fixes (content f) (name p) <> content f ->
  fix_event_listeners (apply_fixes (content f) (name p)) (name p)
  = apply_fixes (content f) (name p) ->
  exists w1 evs1,
    process_file p w = (Returned true, w1, evs1)
    /\ files w1 !! p
       = Some (File (apply_fixes (content f) (name p)) (clock w))
    /\ process_file p w1
       = (Returned false, w1,
          [Print (Processing (name p)); OpenRead p;
           Print (NoChanges (name p))]).
Proof.
  intros Hex Hf Hne Hl.
  eexists _, _. split; [now apply (process_file_changed p w f)|].
  split; [apply lookup_insert_eq|].
  apply (process_file_unchanged p _
           (File (apply_fixes (content f) (name p)) (clock w)));
    [assumption | apply lookup_insert_eq |].
  simpl. now apply apply_fixes_settled.
Qed.

Lemma second_processing_is_idle_witness :
  exists w1 evs1,
    process_file ["public"; "game.js"]%string managed_world
    = (Returned true, w1, evs1)
    /\ files w1 !! (["public"; "game.js"]%string)
       = Some (File (apply_fixes (lit "setTimeout(tick, 16);") "game.js") 4)
    /\ process_file ["public"; "game.js"]%string w1
       = (Returned false, w1,
          [Print (Processing "game.js"); OpenRead ["public"; "game.js"]%string;
           Print (NoChanges "game.js")]).
Proof.
  apply (second_processing_is_idle ["public"; "game.js"]%string managed_world
           (File (lit "setTimeout(tick, 16);") 3)).
  - vm_compute. reflexivity.
  - vm_compute. reflexivity.
  - intros H. apply (f_equal (@length ascii)) in H. vm_compute in H.
    discriminate H.
  - vm_compute. reflexivity.
Defined.

(** ** What a timer substitution leaves behind *)

Lemma free_no_match (a : ascii) (w' pre post : str) :
  forall prev,
    free (a :: w') prev (pre ++ post) = true ->
    match_here (timer_pattern (a :: w')) (lastc prev pre) post = None.
Proof.
  induction pre as [|c pre IH]; intros prev Hf.
  - simpl in Hf |- *. rewrite match_here_timer.
    destruct post as [|d post].
    + unfold matches. cbn [startswith]. now rewrite andb_false_r.
    + cbn [free] in Hf. apply andb_prop in Hf as [Hm _].
      apply negb_true_iff in Hm. now rewrite Hm.
  - change ((c :: pre) ++ post) with (c :: (pre ++ post)) in Hf.
    cbn [free] in Hf. apply andb_prop in Hf as [_ Hf].
    cbn [lastc]. now apply IH.
Qed.

Section TimerResult.
Variable a : ascii.
Variable w' : str.
Variable replacement : str.

Abbreviation w := (a :: w').
Abbreviation tsub := (sub_from (timer_pattern w) (fun _ => replacement)).

Hypothesis word_a : is_word a = true.
Hypothesis word_w : init_word w' = true.
Hypothesis replacement_inert : inert w replacement = true.
Hypothesis same_last : forall p, lastc p replacement = lastc p w.

(** The result of the substitution has no match left. *)
Lemma tsub_result_free (n : nat) :
  forall s prev, length s <= n -> free w prev (tsub prev 0 s) = true.
Proof.
  induction n as [|n IH]; intros s prev Hlen.
  - destruct s; [reflexivity | simpl in Hlen; lia].
  - destruct s as [|c s]; [reflexivity|].
    destruct (matches w prev (c :: s)) eqn:Hm.
    + pose proof Hm as Hm'. unfold matches in Hm'.
      apply andb_prop in Hm' as [Hb Hw].
      destruct (startswith_split _ _ Hw) as [rest Hrest].
      rewrite Hrest in Hb |- *. rewrite (tsub_match _ _ _ _ _ Hb).
      rewrite free_inert by assumption. rewrite same_last. apply IH.
      apply (f_equal (@length ascii)) in Hrest.
      rewrite length_app in Hrest. simpl in Hrest, Hlen. lia.
    + rewrite tsub_step by assumption. cbn [free].
      rewrite (IH s (Some c)) by (simpl in Hlen; lia).
      rewrite andb_true_r. apply negb_true_iff.
      unfold matches in Hm |- *. cbn [head word_at] in Hm |- *.
      destruct (xorb (word_at prev) (is_word c)); [|reflexivity].
      simpl in Hm |- *.
      destruct (Ascii.eqb_spec a c) as [<-|Hne]; [|reflexivity].
      simpl in Hm |- *.
      destruct (startswith w' (tsub (Some a) 0 s)) eqn:Hq; [|reflexivity].
      apply (tsub_prefix a w' replacement word_a) in Hq;
        [congruence | exact word_a | exact word_w].
Qed.
End TimerResult.

(** X10: after the timeout rewriter has rewritten a line (one that is no
    comment and has neither guard text), no bare call is left on it: the
    timeout pattern matches at no position of the new line.  The same holds
    for the interval rewriter. *)
Theorem no_bare_timer_call_left (line pre post : str) :
  is_comment line = false ->
  (contains (lit "timerManager.setTimeout") line
   || contains (lit "window.setTimeout") line = false ->
   timeouts.body line = pre ++ post ->
   match_here timeouts.pattern (lastc None pre) post = None)
  /\ (contains (lit "timerManager.setInterval") line
      || contains (lit "window.setInterval") line = false ->
      intervals.body line = pre ++ post ->
      match_here intervals.pattern (lastc None pre) post = None).
Proof.
  intros Hc. split; intros Hg Hb.
  - unfold timeouts.body in Hb. rewrite Hc, Hg in Hb.
    apply (free_no_match "s" (lit "etTimeout(") pre post None).
    rewrite <- Hb.
    exact (tsub_result_free "s" (lit "etTimeout(")
             (timeouts.replacer no_groups) eq_refl eq_refl eq_refl
             (fun _ => eq_refl) (length line) line None (le_n _)).
  - unfold intervals.body in Hb. rewrite Hc, Hg in Hb.
    apply (free_no_match "s" (lit "etInterval(") pre post None).
    rewrite <- Hb.
    exact (tsub_result_free "s" (lit "etInterval(")
             (intervals.replacer no_groups) eq_refl eq_refl eq_refl
             (fun _ => eq_refl) (length line) line None (le_n _)).
Qed.

Lemma no_bare_timer_call_left_witness :
  match_here timeouts.pattern
    (lastc None
       (lit "if (x) (window.timerManager ? window.timerManager.setTimeout : "))
    (lit "setTimeout)(f, 1); (window.timerManager ? window.timerManager.setTimeout : setTimeout)(g, 2)")
  = None.
Proof.
  apply (proj1 (no_bare_timer_call_left
                  (lit "if (x) setTimeout(f, 1); setTimeout(g, 2)") _ _
                  eq_refl)).
  - vm_compute. reflexivity.
  - vm_compute. reflexivity.
Defined.

(** ** A line with one timer call *)

Lemma startswith_app_split (w x r : str) :
  startswith w (x ++ r) = true ->
  startswith w x = true \/ exists u, w = x ++ u /\ startswith u r = true.
Proof.
  revert w. induction x as [|c x IH]; intros w H.
  - right. now exists w.
  - destruct w as [|a w]; [now left|].
    change ((c :: x) ++ r) with (c :: (x ++ r)) in H.
    cbn [startswith] in H |- *. apply andb_prop in H as [Hac H].
    rewrite Hac. simpl. destruct (IH w H) as [Hl|(u & -> & Hu)].
    + now left.
    + right. exists u. apply Ascii.eqb_eq in Hac as ->. auto.
Qed.

Lemma unbordered_clash (w x u : str) :
  unbordered w = true -> w = x ++ u -> x <> [] -> u <> [] ->
  clash u w = true.
Proof.
  unfold unbordered. intros Hu Hw Hx Hnu.
  rewrite forallb_forall in Hu. specialize (Hu (length x)).
  rewrite Hw in Hu at 2. rewrite drop_app_length in Hu. apply Hu.
  apply in_seq. rewrite Hw, length_app.
  destruct x; [congruence|]. destruct u; [congruence|]. simpl. lia.
Qed.

Section SingleCall.
Variable a : ascii.
Variable w' : str.
Variable replacement : str.

Abbreviation w := (a :: w').
Abbreviation tsub := (sub_from (timer_pattern w) (fun _ => replacement)).

Hypothesis w_unbordered : unbordered w = true.

Lemma tsub_before_call (pre args : str) :
  forall prev,
    contains w pre = false ->
    tsub prev 0 (pre ++ w ++ args)
    = pre ++ tsub (lastc prev pre) 0 (w ++ args).
Proof.
  induction pre as [|c pre IH]; intros prev Hc; [reflexivity|].
  cbn [contains] in Hc. apply orb_false_elim in Hc as [Hs Hc].
  change ((c :: pre) ++ w ++ args) with (c :: (pre ++ w ++ args)).
  rewrite tsub_step.
  - cbn [lastc]. now rewrite IH.
  - unfold matches.
    change (c :: (pre ++ w ++ args)) with ((c :: pre) ++ (w ++ args)).
    destruct (startswith w ((c :: pre) ++ w ++ args)) eqn:E;
      [|apply andb_false_r].
    exfalso. apply startswith_app_split in E as [E|(u & Hw & Hu)].
    + congruence.
    + destruct u as [|d u].
      * rewrite app_nil_r in Hw. rewrite <- Hw in Hs.
        pose proof (startswith_self_app w []) as Hself.
        rewrite app_nil_r in Hself. congruence.
      * assert (Hcl : clash (d :: u) w = true)
          by (apply (unbordered_clash w (c :: pre) (d :: u));
              [assumption | assumption | discriminate | discriminate]).
        rewrite (clash_startswith _ _ args Hcl) in Hu. discriminate.
Qed.

Lemma tsub_single_call (pre args : str) :
  contains w pre = false ->
  contains w args = false ->
  xorb (word_at (lastc None pre)) (is_word a) = true ->
  tsub None 0 (pre ++ w ++ args) = pre ++ replacement ++ args.
Proof.
  intros Hpre Hargs Hb.
  rewrite tsub_before_call by assumption.
  rewrite (tsub_match _ _ _ _ _ Hb).
  rewrite tsub_free by now apply contains_false_free.
  reflexivity.
Qed.
End SingleCall.

(** X11: on a line with one [setTimeout(] call that does not follow a word
    character, the line being no comment and without the guard texts, the
    timeout rewriter replaces the head of the call by the conditional and
    writes the text before it and the text after it as they were. *)
Theorem single_timeout_call (pre args : str) :
  let line := pre ++ lit "setTimeout(" ++ args in
  is_comment line = false ->
  contains (lit "timerManager.setTimeout") line = false ->
  contains (lit "window.setTimeout") line = false ->
  word_at (lastc None pre) = false ->
  contains (lit "setTimeout(") pre = false ->
  contains (lit "setTimeout(") args = false ->
  timeouts.body line
  = pre
    ++ lit "(window.timerManager ? window.timerManager.setTimeout : setTimeout)("
    ++ args.
Proof.
  intros line Hc Hg1 Hg2 Hb Hpre Hargs. unfold timeouts.body.
  rewrite Hc, Hg1, Hg2. cbn [orb].
  apply (tsub_single_call "s" (lit "etTimeout(")
           (timeouts.replacer no_groups) eq_refl pre args Hpre Hargs).
  now rewrite Hb.
Qed.

Lemma single_timeout_call_witness :
  timeouts.body (lit "  this.t = setTimeout(() => go(1, 2), 500);")
  = lit "  this.t = (window.timerManager ? window.timerManager.setTimeout : setTimeout)(() => go(1, 2), 500);".
Proof.
  apply (single_timeout_call (lit "  this.t = ") (lit "() => go(1, 2), 500);"));
    vm_compute; reflexivity.
Defined.

(** X12: the same for a line with one [setInterval(] call and the interval
    rewriter. *)
Theorem single_interval_call (pre args : str) :
  let line := pre ++ lit "setInterval(" ++ args in
  is_comment line = false ->
  contains (lit "timerManager.setInterval") line = false ->
  contains (lit "window.setInterval") line = false ->
  word_at (lastc None pre) = false ->
  contains (lit "setInterval(") pre = false ->
  contains (lit "setInterval(") args = false ->
  intervals.body line
  = pre
    ++ lit "(window.timerManager ? window.timerManager.setInterval : setInterval)("
    ++ args.
Proof.
  intros line Hc Hg1 Hg2 Hb Hpre Hargs. unfold intervals.body.
  rewrite Hc, Hg1, Hg2. cbn [orb].
  apply (tsub_single_call "s" (lit "etInterval(")
           (intervals.replacer no_groups) eq_refl pre args Hpre Hargs).
  now rewrite Hb.
Qed.

Lemma single_interval_call_witness :
  intervals.body (lit "const id = setInterval(tick, 1000 / 60);")
  = lit "const id = (window.timerManager ? window.timerManager.setInterval : setInterval)(tick, 1000 / 60);".
Proof.
  apply (single_interval_call (lit "const id = ") (lit "tick, 1000 / 60);"));
    vm_compute; reflexivity.
Defined.


(** ** The matcher on runs of a class *)

Section MatcherRuns.
Context {A : Type}.

Lemma star_stops (p : ascii -> bool) prev rest
      (k : option ascii -> str -> option A) :
  stops p rest = true -> star p prev rest k = k prev rest.
Proof.
  destruct rest as [|d rest]; simpl; [reflexivity|].
  intros H. apply negb_true_iff in H. now rewrite H.
Qed.

(** The continuation succeeds after the whole run: that is the match. *)
Lemma star_run (p : ascii -> bool) (l : str) :
  forall prev rest (k : option ascii -> str -> option A) x,
    forallb p l = true -> stops p rest = true ->
    k (lastc prev l) rest = Some x ->
    star p prev (l ++ rest) k = Some x.
Proof.
  induction l as [|c l IH]; intros prev rest k x Hl Hr Hk.
  - simpl. now rewrite star_stops.
  - simpl in Hl. apply andb_prop in Hl as [Hc Hl].
    change ((c :: l) ++ rest) with (c :: (l ++ rest)). cbn [star].
    rewrite Hc. now rewrite (IH (Some c) rest k x Hl Hr Hk).
Qed.

(** The continuation fails wherever the run is left inside [l]: the star
    gives back all of [l]. *)
Lemma star_all_fail (p : ascii -> bool) (l : str) :
  forall prev rest (k : option ascii -> str -> option A),
    forallb p l = true -> stops p rest = true ->
    (forall q x y, l = x ++ y -> x <> [] -> k q (y ++ rest) = None) ->
    star p prev (l ++ rest) k = k prev (l ++ rest).
Proof.
  induction l as [|c l IH]; intros prev rest k Hl Hr Hfail.
  - simpl. now apply star_stops.
  - simpl in Hl. apply andb_prop in Hl as [Hc Hl].
    change ((c :: l) ++ rest) with (c :: (l ++ rest)). cbn [star].
    rewrite Hc. rewrite IH; try assumption.
    + now rewrite (Hfail (Some c) [c] l eq_refl).
    + intros q x y -> Hx. now apply (Hfail q (c :: x) y).
Qed.

(** The continuation succeeds after [l1] and fails further on. *)
Lemma star_retreat (p : ascii -> bool) (l1 : str) :
  forall prev l2 rest (k : option ascii -> str -> option A) x,
    forallb p l1 = true -> forallb p l2 = true -> stops p rest = true ->
    (forall q u v, l2 = u ++ v -> u <> [] -> k q (v ++ rest) = None) ->
    k (lastc prev l1) (l2 ++ rest) = Some x ->
    star p prev (l1 ++ l2 ++ rest) k = Some x.
Proof.
  induction l1 as [|c l1 IH]; intros prev l2 rest k x H1 H2 Hr Hfail Hk.
  - simpl in Hk |- *. now rewrite star_all_fail.
  - simpl in H1. apply andb_prop in H1 as [Hc H1].
    change ((c :: l1) ++ l2 ++ rest) with (c :: (l1 ++ l2 ++ rest)).
    cbn [star]. rewrite Hc.
    now rewrite (IH (Some c) l2 rest k x H1 H2 Hr Hfail Hk).
Qed.

Lemma run_lit_ok (l : str) prev rest g
      (k : option ascii -> str -> groups -> option A) :
  run (Lit l) prev (l ++ rest) g k = k (lastc prev l) rest g.
Proof.
  rewrite run_lit, eat_spec, startswith_self_app, drop_app_length.
  reflexivity.
Qed.

Lemma run_star_run (p : ascii -> bool) (l : str) prev rest g
      (k : option ascii -> str -> groups -> option A) x :
  forallb p l = true -> stops p rest = true ->
  k (lastc prev l) rest g = Some x ->
  run (Star p) prev (l ++ rest) g k = Some x.
Proof. intros Hl Hr Hk. cbn [run]. now apply star_run. Qed.

Lemma group_text (l rest : str) :
  firstn (length (l ++ rest) - length rest) (l ++ rest) = l.
Proof.
  rewrite length_app. replace (length l + length rest - length rest)
    with (length l) by lia.
  apply take_app_length.
Qed.

Lemma run_group_run (n : nat) (p : ascii -> bool) (c : ascii) (l : str)
      prev rest g (k : option ascii -> str -> groups -> option A) x :
  forallb p (c :: l) = true -> stops p rest = true ->
  k (lastc prev (c :: l)) rest (set_group n (c :: l) g) = Some x ->
  run (Group n (Plus p)) prev ((c :: l) ++ rest) g k = Some x.
Proof.
  intros Hl Hr Hk. cbn [run]. unfold plus.
  change ((c :: l) ++ rest) with (c :: (l ++ rest)).
  simpl in Hl. apply andb_prop in Hl as [Hc Hl]. rewrite Hc.
  apply star_run; [assumption | assumption |].
  change (c :: (l ++ rest)) with ((c :: l) ++ rest).
  now rewrite group_text.
Qed.

Lemma run_group_retreat (n : nat) (p : ascii -> bool) (c : ascii)
      (l1 l2 : str) prev g
      (k : option ascii -> str -> groups -> option A) x :
  forallb p (c :: l1) = true -> forallb p l2 = true ->
  (forall q g' u v, l2 = u ++ v -> u <> [] -> k q v g' = None) ->
  k (lastc prev (c :: l1)) l2 (set_group n (c :: l1) g) = Some x ->
  run (Group n (Plus p)) prev ((c :: l1) ++ l2) g k = Some x.
Proof.
  intros H1 H2 Hfail Hk. cbn [run]. unfold plus.
  change ((c :: l1) ++ l2) with (c :: (l1 ++ l2)).
  simpl in H1. apply andb_prop in H1 as [Hc H1]. rewrite Hc.
  rewrite <- (app_nil_r l2) at 1.
  apply star_retreat; try assumption; try reflexivity.
  - intros q u v -> Hu. rewrite app_nil_r. now apply (Hfail q _ u v).
  - rewrite app_nil_r. change (c :: (l1 ++ l2)) with ((c :: l1) ++ l2).
    now rewrite group_text.
Qed.
End MatcherRuns.

(** ** The listener pattern on a simple call *)

Lemma space_not_word (c : ascii) : is_space c = true -> is_word c = false.
Proof.
  destruct c as [b0 b1 b2 b3 b4 b5 b6 b7].
  destruct b0, b1, b2, b3, b4, b5, b6, b7; vm_compute; congruence.
Qed.

Lemma run_group_plus_fail {A : Type} (n : nat) (p : ascii -> bool)
      prev c s g (k : option ascii -> str -> groups -> option A) :
  p c = false -> run (Group n (Plus p)) prev (c :: s) g k = None.
Proof. intros H. cbn [run]. unfold plus. now rewrite H. Qed.

Lemma listener_no_match_at_space prev c s :
  is_space c = true -> match_here event_listeners.pattern prev (c :: s) = None.
Proof.
  intros H. unfold match_here, event_listeners.pattern. rewrite run_cat.
  apply run_group_plus_fail. now apply space_not_word.
Qed.

Lemma sub_from_match (r : regex) (repl : groups -> str) prev c m rest g :
  match_here r prev ((c :: m) ++ rest) = Some (g, rest) ->
  sub_from r repl prev 0 ((c :: m) ++ rest)
  = repl g ++ sub_from r repl (lastc prev (c :: m)) 0 rest.
Proof.
  intros H. change ((c :: m) ++ rest) with (c :: (m ++ rest)) in *.
  cbn [sub_from]. rewrite H.
  replace (length (c :: m ++ rest) - length rest) with (S (length m))
    by (simpl; rewrite length_app; lia).
  f_equal. apply (sub_from_skip _ _ m (Some c) rest).
Qed.

Lemma sub_from_spaces (repl : groups -> str) (indent s : str) :
  forall prev,
    forallb is_space indent = true ->
    sub_from event_listeners.pattern repl prev 0 (indent ++ s)
    = indent ++ sub_from event_listeners.pattern repl (lastc prev indent) 0 s.
Proof.
  induction indent as [|c indent IH]; intros prev H; [reflexivity|].
  simpl in H. apply andb_prop in H as [Hc H].
  change ((c :: indent) ++ s) with (c :: (indent ++ s)).
  cbn [sub_from]. rewrite (listener_no_match_at_space _ _ _ Hc).
  cbn [lastc]. now rewrite IH.
Qed.

(** After the handler the pattern wants a comma or a closing parenthesis. *)
Lemma listener_end_fails {A : Type} (r : regex) q (v : str) g
      (k : option ascii -> str -> groups -> option A) :
  forallb plain v = true ->
  run (Cat (Opt (Cat (Lit (lit ",")) r)) (Lit (lit ")"))) q v g k = None.
Proof.
  intros Hv. rewrite run_cat. cbn [run]. rewrite !eat_spec.
  destruct v as [|d v]; [reflexivity|].
  simpl in Hv. apply andb_prop in Hv as [Hd _]. unfold plain in Hd.
  apply andb_prop in Hd as [H1 H2]. unfold not_char in H1, H2.
  apply negb_true_iff in H1, H2.
  change (lit ",") with [","%char]. change (lit ")") with [")"%char].
  cbn [startswith]. now rewrite !(Ascii.eqb_sym _ d), H1, H2.
Qed.

Lemma forallb_app_r {T : Type} (p : T -> bool) (u v : list T) :
  forallb p (u ++ v) = true -> forallb p v = true.
Proof. rewrite forallb_app. intros H. now apply andb_prop in H. Qed.

Lemma plain_not_comma (l : str) :
  forallb plain l = true -> forallb (not_char ",") l = true.
Proof.
  induction l as [|c l IH]; simpl; [reflexivity|]. intros H.
  apply andb_prop in H as [Hc H]. unfold plain in Hc.
  apply andb_prop in Hc as [-> _]. auto.
Qed.

Lemma listener_match_two prev e element v event ws h handler tail :
  forallb is_word (e :: element) = true ->
  forallb (not_char ",") (v :: event) = true ->
  forallb is_space ws = true ->
  is_space h = false ->
  forallb (not_char ",") (h :: handler) = true ->
  forallb plain tail = true ->
  match_here event_listeners.pattern prev
    ((e :: element) ++ lit ".addEventListener(" ++ (v :: event) ++ lit ","
     ++ ws ++ (h :: handler) ++ lit ")" ++ tail)
  = Some (call_groups (e :: element) (v :: event) (h :: handler), tail).
Proof.
  intros He Hv Hws Hh Hhandler Htail.
  unfold match_here, event_listeners.pattern. rewrite run_cat.
  apply run_group_run; [assumption | reflexivity |].
  rewrite run_cat, run_lit_ok, run_cat.
  apply run_group_run; [assumption | reflexivity |].
  rewrite run_cat, run_lit_ok, run_cat.
  apply run_star_run; [assumption | simpl; now rewrite Hh |].
  rewrite run_cat.
  apply run_group_retreat.
  - assumption.
  - change (lit ")") with [")"%char]. simpl. now apply plain_not_comma.
  - intros q g' u w Huw Hu. apply listener_end_fails.
    destruct u as [|d u]; [congruence|].
    change (lit ")") with [")"%char] in Huw. injection Huw as _ Huw.
    rewrite Huw in Htail. now apply forallb_app_r in Htail.
  - rewrite run_cat. cbn [run].
    change (lit ")" ++ tail) with (")"%char :: tail).
    change (lit ",") with [","%char]. cbn [eat]. cbn [Ascii.eqb Bool.eqb].
    change [")"%char] with (lit ")").
    change (")"%char :: tail) with (lit ")" ++ tail).
    rewrite eat_spec, startswith_self_app, drop_app_length. reflexivity.
Qed.

Lemma listener_match_three prev e element v event ws h handler ws' o options
      tail :
  forallb is_word (e :: element) = true ->
  forallb (not_char ",") (v :: event) = true ->
  forallb is_space ws = true ->
  is_space h = false ->
  forallb (not_char ",") (h :: handler) = true ->
  forallb is_space ws' = true ->
  is_space o = false ->
  forallb (not_char ")") (o :: options) = true ->
  match_here event_listeners.pattern prev
    ((e :: element) ++ lit ".addEventListener(" ++ (v :: event) ++ lit ","
     ++ ws ++ (h :: handler) ++ lit "," ++ ws' ++ (o :: options) ++ lit ")"
     ++ tail)
  = Some (call_groups_options (e :: element) (v :: event) (h :: handler)
                              (o :: options), tail).
Proof.
  intros He Hv Hws Hh Hhandler Hws' Ho Hoptions.
  unfold match_here, event_listeners.pattern. rewrite run_cat.
  apply run_group_run; [assumption | reflexivity |].
  rewrite run_cat, run_lit_ok, run_cat.
  apply run_group_run; [assumption | reflexivity |].
  rewrite run_cat, run_lit_ok, run_cat.
  apply run_star_run; [assumption | simpl; now rewrite Hh |].
  rewrite run_cat.
  apply run_group_run; [assumption | reflexivity |].
  rewrite run_cat.
  assert (Hopt : forall (k : option ascii -> str -> groups -> option (groups * str)) r p s g x,
             run r p s g k = Some x -> run (Opt r) p s g k = Some x)
    by (intros k r p s g x H; cbn [run]; now rewrite H).
  apply Hopt. rewrite run_cat, run_lit_ok, run_cat.
  apply run_star_run; [assumption | simpl; now rewrite Ho |].
  apply run_group_run; [assumption | reflexivity |].
  rewrite run_lit_ok. reflexivity.
Qed.

Lemma listener_match_has_comma prev s g rest :
  match_here event_listeners.pattern prev s = Some (g, rest) ->
  In ","%char s.
Proof.
  unfold match_here, event_listeners.pattern. rewrite run_cat. intros H.
  apply run_suffix in H as (p1 & s1 & g1 & m1 & H & ->).
  rewrite run_cat in H.
  apply run_suffix in H as (p2 & s2 & g2 & m2 & H & ->).
  rewrite run_cat in H.
  apply run_suffix in H as (p3 & s3 & g3 & m3 & H & ->).
  rewrite run_cat, run_lit, eat_spec in H.
  destruct (startswith (lit ",") s3) eqn:E; [|discriminate].
  apply startswith_split in E as [t ->].
  rewrite !in_app_iff. right; right; right; left. now left.
Qed.

Lemma listener_no_match_without_comma (repl : groups -> str) (s : str) :
  forallb (not_char ",") s = true ->
  forall prev, sub_from event_listeners.pattern repl prev 0 s = s.
Proof.
  intros Hs. apply sub_from_no_match. intros prev m s' ->.
  destruct (match_here _ _ _) as [[g rest]|] eqn:E; [|reflexivity].
  apply listener_match_has_comma in E.
  apply forallb_app_r in Hs. rewrite forallb_forall in Hs.
  specialize (Hs _ E). unfold not_char in Hs.
  now rewrite Ascii.eqb_refl in Hs.
Qed.

Lemma lstrip_keeps_last (u : str) (e : ascii) :
  is_space e = false -> exists u', lstrip (u ++ [e]) = u' ++ [e].
Proof.
  intros He. induction u as [|c u IH]; simpl.
  - rewrite He. now exists [].
  - destruct (is_space c); [exact IH | now exists (c :: u)].
Qed.

Lemma strip_indented (indent : str) (e : ascii) (rest : str) :
  forallb is_space indent = true -> is_space e = false ->
  exists t, strip (indent ++ e :: rest) = e :: t.
Proof.
  intros Hi He. unfold strip. rewrite lstrip_spaces by assumption.
  cbn [lstrip]. rewrite He. cbn [rev].
  destruct (lstrip_keeps_last (rev rest) e He) as [u' ->].
  rewrite rev_app_distr. now exists (rev u').
Qed.

Lemma word_line_not_comment (indent : str) (e : ascii) (rest : str) :
  forallb is_space indent = true -> is_word e = true ->
  is_comment (indent ++ e :: rest) = false.
Proof.
  intros Hi He.
  assert (Hs : is_space e = false).
  { destruct (is_space e) eqn:E; [|reflexivity].
    apply space_not_word in E. congruence. }
  destruct (strip_indented indent e rest Hi Hs) as [t Ht].
  unfold is_comment. rewrite Ht.
  change (lit "//") with ["/"%char; "/"%char].
  change (lit "*") with ["*"%char]. cbn [startswith].
  destruct (Ascii.eqb_spec "/" e) as [<-|_]; [vm_compute in He; discriminate|].
  destruct (Ascii.eqb_spec "*" e) as [<-|_]; [vm_compute in He; discriminate|].
  reflexivity.
Qed.

Lemma replacer_two (element event handler : str) :
  event_listeners.replacer (call_groups element event handler)
  = lit "(window.eventListenerManager ? window.eventListenerManager.add("
    ++ element ++ lit ", " ++ event ++ lit ", " ++ handler ++ lit ") : "
    ++ element ++ lit ".addEventListener(" ++ event ++ lit ", " ++ handler
    ++ lit "))".
Proof. reflexivity. Qed.

Lemma replacer_three (element event handler : str) (o : ascii) (options : str) :
  event_listeners.replacer
    (call_groups_options element event handler (o :: options))
  = lit "(window.eventListenerManager ? window.eventListenerManager.add("
    ++ element ++ lit ", " ++ event ++ lit ", " ++ handler ++ lit ", "
    ++ (o :: options) ++ lit ") : "
    ++ element ++ lit ".addEventListener(" ++ event ++ lit ", " ++ handler
    ++ lit ", " ++ (o :: options) ++ lit "))".
Proof. reflexivity. Qed.

(** X13: a call with two arguments on a line of its own.  The line is
    indentation, an element name of word characters, [.addEventListener(],
    an event without a comma, a comma and white space, a handler without a
    comma that does not begin with white space, the closing parenthesis,
    and a rest without comma or closing parenthesis.  The listener rewriter
    gives the conditional with element, event and handler in this order, a
    comma and one space between them, and keeps the indentation and the
    rest. *)
Theorem simple_listener_call
        (indent : str) (e : ascii) (element : str) (v : ascii) (event : str)
        (ws : str) (h : ascii) (handler : str) (tail : str) :
  forallb is_space indent = true ->
  forallb is_word (e :: element) = true ->
  forallb (not_char ",") (v :: event) = true ->
  forallb is_space ws = true ->
  is_space h = false ->
  forallb (not_char ",") (h :: handler) = true ->
  forallb plain tail = true ->
  event_listeners.body
    (indent ++ (e :: element) ++ lit ".addEventListener(" ++ (v :: event)
     ++ lit "," ++ ws ++ (h :: handler) ++ lit ")" ++ tail)
  = indent
    ++ lit "(window.eventListenerManager ? window.eventListenerManager.add("
    ++ (e :: element) ++ lit ", " ++ (v :: event) ++ lit ", "
    ++ (h :: handler) ++ lit ") : "
    ++ (e :: element) ++ lit ".addEventListener(" ++ (v :: event) ++ lit ", "
    ++ (h :: handler) ++ lit "))" ++ tail.
Proof.
  intros Hi He Hv Hws Hh Hhandler Htail.
  pose proof (listener_match_two (lastc None indent) e element v event ws h
                handler tail He Hv Hws Hh Hhandler Htail) as Hm.
  set (m := element ++ lit ".addEventListener(" ++ (v :: event) ++ lit ","
            ++ ws ++ (h :: handler) ++ lit ")").
  assert (Hline : (e :: element) ++ lit ".addEventListener(" ++ (v :: event)
                  ++ lit "," ++ ws ++ (h :: handler) ++ lit ")" ++ tail
                  = (e :: m) ++ tail)
    by (unfold m; rewrite app_comm_cons, <- !app_assoc; reflexivity).
  rewrite Hline in Hm |- *.
  unfold event_listeners.body.
  change ((e :: m) ++ tail) with (e :: (m ++ tail)) at 1.
  rewrite word_line_not_comment;
    [|assumption | simpl in He; now apply andb_prop in He as [-> _]].
  unfold re_sub. rewrite sub_from_spaces by assumption.
  rewrite (sub_from_match _ _ _ _ _ _ _ Hm).
  rewrite listener_no_match_without_comma by now apply plain_not_comma.
  rewrite replacer_two. now rewrite <- !app_assoc.
Qed.

Lemma simple_listener_call_witness :
  event_listeners.body
    (lit "    btn.addEventListener('click',  () => start(1));")
  = lit "    (window.eventListenerManager ? window.eventListenerManager.add(btn, 'click', () => start(1)) : btn.addEventListener('click', () => start(1)));".
Proof.
  apply (simple_listener_call (lit "    ") "b" (lit "tn") "'" (lit "click'")
           (lit "  ") "(" (lit ") => start(1)") (lit ";"));
    vm_compute; reflexivity.
Defined.

(** X14: the same call with a third argument (options) that has no closing
    parenthesis and does not begin with white space: the options are handed
    on as the fourth argument of the manager and the third of the direct
    call.  The rest of the line may be any text without
    [.addEventListener(]. *)
Theorem simple_listener_call_with_options
        (indent : str) (e : ascii) (element : str) (v : ascii) (event : str)
        (ws : str) (h : ascii) (handler : str)
        (ws' : str) (o : ascii) (options : str) (tail : str) :
  forallb is_space indent = true ->
  forallb is_word (e :: element) = true ->
  forallb (not_char ",") (v :: event) = true ->
  forallb is_space ws = true ->
  is_space h = false ->
  forallb (not_char ",") (h :: handler) = true ->
  forallb is_space ws' = true ->
  is_space o = false ->
  forallb (not_char ")") (o :: options) = true ->
  contains (lit ".addEventListener(") tail = false ->
  event_listeners.body
    (indent ++ (e :: element) ++ lit ".addEventListener(" ++ (v :: event)
     ++ lit "," ++ ws ++ (h :: handler) ++ lit "," ++ ws' ++ (o :: options)
     ++ lit ")" ++ tail)
  = indent
    ++ lit "(window.eventListenerManager ? window.eventListenerManager.add("
    ++ (e :: element) ++ lit ", " ++ (v :: event) ++ lit ", "
    ++ (h :: handler) ++ lit ", " ++ (o :: options) ++ lit ") : "
    ++ (e :: element) ++ lit ".addEventListener(" ++ (v :: event) ++ lit ", "
    ++ (h :: handler) ++ lit ", " ++ (o :: options) ++ lit "))" ++ tail.
Proof.
  intros Hi He Hv Hws Hh Hhandler Hws' Ho Hoptions Htail.
  pose proof (listener_match_three (lastc None indent) e element v event ws h
                handler ws' o options tail He Hv Hws Hh Hhandler Hws' Ho
                Hoptions) as Hm.
  set (m := element ++ lit ".addEventListener(" ++ (v :: event) ++ lit ","
            ++ ws ++ (h :: handler) ++ lit "," ++ ws' ++ (o :: options)
            ++ lit ")").
  assert (Hline : (e :: element) ++ lit ".addEventListener(" ++ (v :: event)
                  ++ lit "," ++ ws ++ (h :: handler) ++ lit "," ++ ws'
                  ++ (o :: options) ++ lit ")" ++ tail
                  = (e :: m) ++ tail)
    by (unfold m; rewrite app_comm_cons, <- !app_assoc; reflexivity).
  rewrite Hline in Hm |- *.
  unfold event_listeners.body.
  change ((e :: m) ++ tail) with (e :: (m ++ tail)) at 1.
  rewrite word_line_not_comment;
    [|assumption | simpl in He; now apply andb_prop in He as [-> _]].
  unfold re_sub. rewrite sub_from_spaces by assumption.
  rewrite (sub_from_match _ _ _ _ _ _ _ Hm).
  rewrite sub_from_no_match.
  - rewrite replacer_three. now rewrite <- !app_assoc.
  - intros prev m' s' Hs'.
    destruct (match_here event_listeners.pattern prev s')
      as [[g rest]|] eqn:E; [|reflexivity].
    apply listener_match_has_literal in E.
    rewrite Hs' in Htail. now rewrite (contains_app_r _ m' _ E) in Htail.
Qed.

Lemma simple_listener_call_with_options_witness :
  event_listeners.body
    (lit "window.addEventListener('scroll', onScroll, { passive: true, once: false }); init();")
  = lit "(window.eventListenerManager ? window.eventListenerManager.add(window, 'scroll', onScroll, { passive: true, once: false }) : window.addEventListener('scroll', onScroll, { passive: true, once: false })); init();".
Proof.
  apply (simple_listener_call_with_options
           [] "w" (lit "indow") "'" (lit "scroll'") (lit " ")
           "o" (lit "nScroll") (lit " ") "{"
           (lit " passive: true, once: false }") (lit "; init();"));
    vm_compute; reflexivity.
Defined.

(** ** A file without any of the three calls *)

(** X15: a file that is not excluded and whose content has none of the
    texts [.addEventListener(], [setTimeout(] and [setInterval(] is read
    and not written: [process_file] reports that no changes were needed. *)
Theorem file_without_calls_not_written (p : path) (w : world) (f : file) :
  excluded p = false ->
  files w !! p = Some f ->
  contains (lit ".addEventListener(") (content f) = false ->
  contains (lit "setTimeout(") (content f) = false ->
  contains (lit "setInterval(") (content f) = false ->
  process_file p w
  = (Returned false, w,
     [Print (Processing (name p)); OpenRead p; Print (NoChanges (name p))]).
Proof.
  intros Hex Hf He Ht Hi. apply (process_file_unchanged p w f Hex Hf).
  unfold apply_fixes.
  assert (H1 : fix_event_listeners (content f) (name p) = content f).
  { rewrite fix_event_listeners_per_line. apply per_line_fixed.
    intros l Hl. apply event_body_without.
    now apply (lines_without _ (content f)). }
  assert (H2 : fix_timeouts (content f) (name p) = content f).
  { rewrite fix_timeouts_per_line. apply per_line_fixed.
    intros l Hl. apply timeouts_body_without.
    now apply (lines_without _ (content f)). }
  assert (H3 : fix_intervals (content f) (name p) = content f).
  { rewrite fix_intervals_per_line. apply per_line_fixed.
    intros l Hl. apply intervals_body_without.
    now apply (lines_without _ (content f)). }
  now rewrite H1, H2, H3.
Qed.

Lemma file_without_calls_not_written_witness :
  let w := World {[ ["public"; "math.js"]%string :=
                      File (lit "export const add = (a, b) => a + b;") 1 ]} 2
  in
  process_file ["public"; "math.js"]%string w
  = (Returned false, w,
     [Print (Processing "math.js"); OpenRead ["public"; "math.js"]%string;
      Print (NoChanges "math.js")]).
Proof.
  cbv zeta.
  apply (file_without_calls_not_written ["public"; "math.js"]%string _
           (File (lit "export const add = (a, b) => a + b;") 1));
    vm_compute; reflexivity.
Defined.
